(** * subsgrade: dependency and commit audit (src/index.js)

    A shallow embedding of the two subcommands of the tool, [cmdDependencies]
    and [cmdCommits], and of the directory walker [deepReadDir] they share.

    JavaScript strings are sequences of UTF-16 code units ([list N]); objects
    used as maps are insertion-ordered association lists with the
    enumeration order of [Object.keys]; exceptions and rejected promises are
    the [Err] case of [result]; console output is a list of [output] events.
    The outside world (file system, TOML parser, git, hosting API, terminal
    colours) is passed in as explicit oracles. *)

From Stdlib Require Import String Ascii.
From Stdlib Require Import List NArith Bool Arith Lia Permutation.
Import ListNotations.

Set Implicit Arguments.

(** ** JavaScript strings *)

Module Js.

Definition jsstr := list N.

(** An ASCII literal as a JavaScript string. *)
Definition lit (s : String.string) : jsstr :=
  List.map N_of_ascii (String.list_ascii_of_string s).
Arguments lit : simpl never.

Fixpoint str_eqb (a b : jsstr) : bool :=
  match a, b with
  | [], [] => true
  | x :: a', y :: b' => N.eqb x y && str_eqb a' b'
  | _, _ => false
  end.

(** [String.prototype.startsWith]. *)
Fixpoint startsWith (s prefix : jsstr) : bool :=
  match prefix, s with
  | [], _ => true
  | p :: prefix', c :: s' => N.eqb p c && startsWith s' prefix'
  | _ :: _, [] => false
  end.

(** Line terminators of ECMAScript: LF, CR, LS, PS. *)
Definition is_line_terminator (c : N) : bool :=
  (N.eqb c 10 || N.eqb c 13 || N.eqb c 8232 || N.eqb c 8233)%bool.

(** White space removed by [String.prototype.trim]: the WhiteSpace
    production (TAB, VT, FF, SP, NBSP, ZWNBSP and category Zs) and the line
    terminators. *)
Definition is_white_space (c : N) : bool :=
  (N.eqb c 9 || N.eqb c 11 || N.eqb c 12 || N.eqb c 32 || N.eqb c 160
   || N.eqb c 5760 || (N.leb 8192 c && N.leb c 8202)
   || N.eqb c 8239 || N.eqb c 8287 || N.eqb c 12288 || N.eqb c 65279
   || is_line_terminator c)%bool.

Fixpoint trimStart (s : jsstr) : jsstr :=
  match s with
  | c :: s' => if is_white_space c then trimStart s' else s
  | [] => []
  end.

Definition trimEnd (s : jsstr) : jsstr := rev (trimStart (rev s)).

Definition trim (s : jsstr) : jsstr := trimEnd (trimStart s).

(** [s.split(sep)] for a separator of one code unit: never empty, one more
    piece than there are separators. *)
Fixpoint split (sep : N) (s : jsstr) : list jsstr :=
  match s with
  | [] => [[]]
  | c :: s' =>
      if N.eqb c sep then [] :: split sep s'
      else match split sep s' with
           | piece :: pieces => (c :: piece) :: pieces
           | [] => [[c]]
           end
  end.

(** [pieces.join(sep)]. *)
Fixpoint join (sep : jsstr) (pieces : list jsstr) : jsstr :=
  match pieces with
  | [] => []
  | [p] => p
  | p :: rest => p ++ sep ++ join sep rest
  end.

(** [s.replace(pat, by)] with a string pattern: the first occurrence only. *)
Fixpoint replace (pat by_ s : jsstr) : jsstr :=
  if startsWith s pat then by_ ++ skipn (length pat) s
  else match s with
       | [] => []
       | c :: s' => c :: replace pat by_ s'
       end.

Definition SP : N := 32.
Definition LF : N := 10.
Definition QUOTE : N := 34.
Definition HASH : N := 35.

(** A string is truthy when it is not empty. *)
Definition nonempty (s : jsstr) : bool :=
  match s with
  | [] => false
  | _ :: _ => true
  end.

(** Values a program reads out of parsed configuration or responses, as far
    as the program can tell them apart: [undefined], a string, or something
    else, of which only its rendering by [String(v)] is observable. *)
Inductive jsval :=
| JUndefined
| JStr (s : jsstr)
| JNonStr (shown : jsstr).

Definition to_display (v : jsval) : jsstr :=
  match v with
  | JUndefined => lit "undefined"
  | JStr s => s
  | JNonStr shown => shown
  end.

(** Strict equality [v === s] against a string. *)
Definition strict_eq_str (v : jsval) (s : jsstr) : bool :=
  match v with
  | JStr s' => str_eqb s' s
  | _ => false
  end.

End Js.
Import Js.

(** ** Regular expressions

    The fragment of ECMAScript regular expressions the program uses:
    single-unit matchers (literals, [.], classes), sequence, a greedy
    optional group [(?:r)?], a greedy class repetition [c+], and numbered
    capturing groups. Matching is by backtracking, in continuation-passing
    style, leftmost start first. *)

Module Regex.

Inductive regex :=
| REmpty
| RChar (p : N -> bool)
| RSeq (r1 r2 : regex)
| ROpt (r : regex)
| RPlus (p : N -> bool)
| RGroup (i : nat) (r : regex).

Definition captures := list (nat * jsstr).

Fixpoint plus_greedy (p : N -> bool) (k : jsstr -> option captures)
    (s : jsstr) : option captures :=
  match s with
  | [] => None
  | c :: s' =>
      if p c then
        match plus_greedy p k s' with
        | Some cs => Some cs
        | None => k s'
        end
      else None
  end.

Fixpoint rmatch (r : regex) (k : captures -> jsstr -> option captures)
    (cs : captures) (s : jsstr) : option captures :=
  match r with
  | REmpty => k cs s
  | RChar p =>
      match s with
      | c :: s' => if p c then k cs s' else None
      | [] => None
      end
  | RSeq r1 r2 => rmatch r1 (fun cs' s' => rmatch r2 k cs' s') cs s
  | ROpt r1 =>
      match rmatch r1 k cs s with
      | Some cs' => Some cs'
      | None => k cs s
      end
  | RPlus p => plus_greedy p (k cs) s
  | RGroup i r1 =>
      rmatch r1
        (fun cs' s' => k ((i, firstn (length s - length s') s) :: cs') s')
        cs s
  end.

(** [s.match(r)] without the global flag: the captures of the leftmost
    match, [None] for [null]. *)
Fixpoint exec (r : regex) (s : jsstr) : option captures :=
  match rmatch r (fun cs _ => Some cs) [] s with
  | Some cs => Some cs
  | None =>
      match s with
      | [] => None
      | _ :: s' => exec r s'
      end
  end.

(** [match[i]] for a group that took part in the match. *)
Fixpoint group (i : nat) (cs : captures) : jsstr :=
  match cs with
  | [] => []
  | (j, v) :: cs' => if Nat.eqb i j then v else group i cs'
  end.

Definition rlit (s : jsstr) : regex :=
  fold_right (fun c r => RSeq (RChar (N.eqb c)) r) REmpty s.

(** [.] : any code unit but a line terminator. *)
Definition dot : N -> bool := fun c => negb (is_line_terminator c).

(** [[^x]] : any code unit but those of [x], line terminators included. *)
Definition not_char (x : jsstr) : N -> bool :=
  fun c => negb (existsb (N.eqb c) x).

(** [\w] : ASCII letters, digits and underscore. *)
Definition word_char : N -> bool :=
  fun c => ((N.leb 97 c && N.leb c 122) || (N.leb 65 c && N.leb c 90)
            || (N.leb 48 c && N.leb c 57) || N.eqb c 95)%bool.

Fixpoint rseq (rs : list regex) : regex :=
  match rs with
  | [] => REmpty
  | r :: rs' => RSeq r (rseq rs')
  end.

End Regex.
Import Regex.

(** ** Errors *)

Inductive error :=
| TypeError
    (* a property read on [null]/[undefined], or a call of a non-function *)
| HostError (msg : jsstr)
    (* thrown or rejected by fs, the TOML parser, child_process or axios *)
| Wrapped (prefix : jsstr) (cause : error).
    (* [new Error(`${prefix}: ${cause}`)] *)

Inductive result (A : Type) :=
| Ok (a : A)
| Err (e : error).
Arguments Ok {A} a.
Arguments Err {A} e.

Definition rbind {A B} (m : result A) (f : A -> result B) : result B :=
  match m with
  | Ok a => f a
  | Err e => Err e
  end.

Declare Scope result_scope.
Delimit Scope result_scope with result.
Notation "x <- m ;; k" := (rbind m (fun x => k))
  (at level 61, m at next level, right associativity) : result_scope.

(** ** Objects used as maps *)

Module JsObject.

Section Obj.
Variable V : Type.

(** Own properties in insertion order, keys unique. *)
Definition obj := list (jsstr * V).

Fixpoint get_own (o : obj) (k : jsstr) : option V :=
  match o with
  | [] => None
  | (k', v) :: o' => if str_eqb k' k then Some v else get_own o' k
  end.

(** [o[k] = v] for a key that is not an accessor of the prototype. *)
Fixpoint set_own (o : obj) (k : jsstr) (v : V) : obj :=
  match o with
  | [] => [(k, v)]
  | (k', v') :: o' =>
      if str_eqb k' k then (k', v) :: o' else (k', v') :: set_own o' k v
  end.

End Obj.

(** Property names every plain object inherits from [Object.prototype];
    reading one of them on an object that has no own property of that name
    yields a function (or, for [__proto__], the prototype object), each of
    them truthy and none of them with a [push] method. *)
Definition prototype_keys : list jsstr :=
  List.map lit
    ["constructor"; "__defineGetter__"; "__defineSetter__"; "hasOwnProperty";
     "__lookupGetter__"; "__lookupSetter__"; "isPrototypeOf";
     "propertyIsEnumerable"; "toString"; "valueOf"; "__proto__";
     "toLocaleString"]%string.

Definition inherited (k : jsstr) : bool := existsb (str_eqb k) prototype_keys.

Definition is_digit (c : N) : bool := (N.leb 48 c && N.leb c 57)%bool.

Definition decimal_value (s : jsstr) : N :=
  fold_left (fun acc c => (acc * 10 + (c - 48))%N) s 0%N.

(** An array index: the canonical decimal form of an integer below
    [2^32 - 1]. *)
Definition array_index (k : jsstr) : option N :=
  match k with
  | [] => None
  | c :: rest =>
      if forallb is_digit k
         && (negb (N.eqb c 48) || match rest with [] => true | _ => false end)
         && Nat.leb (length k) 10
         && N.ltb (decimal_value k) 4294967295
      then Some (decimal_value k)
      else None
  end.

Fixpoint insert_index (x : N * jsstr) (l : list (N * jsstr)) : list (N * jsstr) :=
  match l with
  | [] => [x]
  | y :: l' => if N.leb (fst x) (fst y) then x :: l else y :: insert_index x l'
  end.

Definition sort_index (l : list (N * jsstr)) : list (N * jsstr) :=
  fold_right insert_index [] l.

Fixpoint index_keys (ks : list jsstr) : list (N * jsstr) :=
  match ks with
  | [] => []
  | k :: ks' =>
      match array_index k with
      | Some n => (n, k) :: index_keys ks'
      | None => index_keys ks'
      end
  end.

Definition name_keys (ks : list jsstr) : list jsstr :=
  filter (fun k => match array_index k with Some _ => false | None => true end) ks.

(** [Object.keys(o)]: array indices in ascending order, then the other
    keys in insertion order. *)
Definition keys {V} (o : obj V) : list jsstr :=
  let ks := List.map fst o in
  List.map snd (sort_index (index_keys ks)) ++ name_keys ks.

(** The idiom of both scanners,
<<
    if (!index[key]) { index[key] = []; }
    index[key].push(name);
>>
    on an index whose values are arrays of names. *)
Definition push_name (index : obj (list jsstr)) (key name : jsstr)
  : result (obj (list jsstr)) :=
  match get_own index key with
  | Some names => Ok (set_own index key (names ++ [name]))
  | None =>
      if inherited key then Err TypeError
      else Ok (set_own index key [name])
  end.

(** The sequence an index holds under a key, empty when it has none. *)
Definition sequence_of (index : obj (list jsstr)) (key : jsstr) : list jsstr :=
  match get_own index key with
  | Some names => names
  | None => []
  end.

(** No key of the index holds an empty sequence. *)
Definition populated (index : obj (list jsstr)) : Prop :=
  forall k, get_own index k <> Some [].

(** All names held by an index, over all its keys. *)
Definition indexed_names (index : obj (list jsstr)) : list jsstr :=
  flat_map snd index.

(** [name] is in the sequence the index holds under [key]. *)
Definition indexed_under (index : obj (list jsstr)) (key name : jsstr) : Prop :=
  exists names, get_own index key = Some names /\ In name names.

End JsObject.
Import JsObject.

(** ** The lockfile scan of [cmdDependencies] (index.js, lines 203-221) *)

Module Lock.

(** [cargoLockPackage], the one buffer of the scan; [None] is [null]. *)
Record CargoLockPackage := {
  name : option jsstr;
  source : option jsstr
}.

(** A value used as a property name: [null] becomes the string "null". *)
Definition property_key (v : option jsstr) : jsstr :=
  match v with
  | Some s => s
  | None => lit "null"
  end.

(** [/name = "([^"]+)"/] and [/source = "([^"]+)"/]. *)
Definition quoted_field (field : jsstr) : regex :=
  rseq [rlit (field ++ lit " = " ++ [QUOTE]);
        RGroup 1 (RPlus (not_char [QUOTE]));
        rlit [QUOTE]].

Definition name_prefix : jsstr := lit "name = " ++ [QUOTE].
Definition source_prefix : jsstr := lit "source = " ++ [QUOTE].

(** [line.match(re)[1]]: a [TypeError] when there is no match. *)
Definition match1 (re : regex) (line : jsstr) : result jsstr :=
  match exec re line with
  | Some m => Ok (group 1 m)
  | None => Err TypeError
  end.

Definition scan_state := (CargoLockPackage * obj (list jsstr))%type.

(** The body of the loop over the lines of the lockfile. *)
Definition scan_line (st : scan_state) (cargoLine : jsstr) : result scan_state :=
  let '(cargoLockPackage, cargoLockPackages) := st in
  let line := trim cargoLine in
  (cargoLockPackages' <-
     match name cargoLockPackage with
     | Some n =>
         if str_eqb line (lit "[[package]]")
         then push_name cargoLockPackages
                (property_key (source cargoLockPackage)) n
         else Ok cargoLockPackages
     | None => Ok cargoLockPackages
     end ;;
   named <-
     (if startsWith line name_prefix
      then n <- match1 (quoted_field (lit "name")) line ;;
           Ok {| name := Some n; source := source cargoLockPackage |}
      else Ok cargoLockPackage) ;;
   sourced <-
     (if startsWith line source_prefix
      then s <- match1 (quoted_field (lit "source")) line ;;
           Ok {| name := name named; source := Some s |}
      else Ok named) ;;
   Ok (sourced, cargoLockPackages'))%result.

Fixpoint scan_lines (st : scan_state) (lines : list jsstr) : result scan_state :=
  match lines with
  | [] => Ok st
  | cargoLine :: rest =>
      (st' <- scan_line st cargoLine ;; scan_lines st' rest)%result
  end.

Definition initial : scan_state := ({| name := None; source := None |}, []).

(** The index [cargoLockPackages] as it stands when the loop over
    [cargoLock.split("\n")] has ended. *)
Definition cargoLockPackages (cargoLock : jsstr) : result (obj (list jsstr)) :=
  (st <- scan_lines initial (split LF cargoLock) ;; Ok (snd st))%result.

(** [v] is what one of [lines] gives for a field: the line starts with
    the prefix of the field and the pattern of the field captures [v]. *)
Definition given_by (lines : list jsstr) (prefix field v : jsstr) : Prop :=
  exists cargoLine,
    In cargoLine lines
    /\ startsWith (trim cargoLine) prefix = true
    /\ match1 (quoted_field field) (trim cargoLine) = Ok v.

(** Everything a state of the scan holds was given by one of [lines]. *)
Definition from_lines (lines : list jsstr) (st : scan_state) : Prop :=
  (forall n, name (fst st) = Some n ->
             given_by lines name_prefix (lit "name") n)
  /\ (forall s, source (fst st) = Some s ->
                given_by lines source_prefix (lit "source") s)
  /\ (forall n, In n (indexed_names (snd st)) ->
                given_by lines name_prefix (lit "name") n)
  /\ (forall k, In k (List.map fst (snd st)) ->
                k = lit "null"
                \/ given_by lines source_prefix (lit "source") k).

End Lock.

(** Lockfiles as the package manager writes them, line by line: a block
    is a marker line, a name line, a source line unless the package is a
    local one, and an empty line. *)
Module LockShape.

Definition marker : jsstr := lit "[[package]]".

Definition name_line (n : jsstr) : jsstr := Lock.name_prefix ++ n ++ [QUOTE].

Definition source_line (s : jsstr) : jsstr := Lock.source_prefix ++ s ++ [QUOTE].

Definition block_lines (b : jsstr * option jsstr) : list jsstr :=
  marker :: name_line (fst b)
    :: match snd b with
       | Some s => [source_line s; []]
       | None => [[]]
       end.

Definition lockfile_lines (blocks : list (jsstr * option jsstr)) : list jsstr :=
  flat_map block_lines blocks.

(** The text of the lockfile: its lines joined by line feeds (the last
    line of a block is empty, so the text ends with a line feed). *)
Definition lockfile_text (blocks : list (jsstr * option jsstr)) : jsstr :=
  Js.join [LF] (lockfile_lines blocks).

(** A value that can stand between the quotes of a line. *)
Definition value (v : jsstr) : Prop :=
  v <> [] /\ ~ In QUOTE v /\ ~ In LF v.

Definition well_formed (b : jsstr * option jsstr) : Prop :=
  value (fst b)
  /\ match snd b with
     | Some s => value s /\ inherited s = false
     | None => True
     end.

(** What meeting a marker does to the index. *)
Definition commit (buffer : Lock.CargoLockPackage) (index : obj (list jsstr))
  : result (obj (list jsstr)) :=
  match Lock.name buffer with
  | Some n => push_name index (Lock.property_key (Lock.source buffer)) n
  | None => Ok index
  end.

(** The buffer after the lines of a block. *)
Definition filled (buffer : Lock.CargoLockPackage) (b : jsstr * option jsstr)
  : Lock.CargoLockPackage :=
  {| Lock.name := Some (fst b);
     Lock.source := match snd b with
                    | Some s => Some s
                    | None => Lock.source buffer
                    end |}.

End LockShape.

(** ** The directory walk [deepReadDir] (index.js, lines 250-275) *)

Module Walk.

Inductive dirent_type := IsFile | IsDirectory | IsOther.

(** An [fs.Dirent]: a name and what [isFile()] and [isDirectory()] say. *)
Record Dirent := {
  d_name : jsstr;
  d_type : dirent_type
}.

Definition isDirectory (d : Dirent) : bool :=
  match d_type d with IsDirectory => true | _ => false end.

Definition isFile (d : Dirent) : bool :=
  match d_type d with IsFile => true | _ => false end.

(** The file system below a directory. A directory carries what [readdir]
    answers for it: its entries, or the error it rejects with. Symbolic
    links, sockets and the like are [Special]: neither file nor directory. *)
#[local] Set Warnings "-register-all".
Inductive fstree :=
| File (fname : jsstr)
| Special (fname : jsstr)
| Directory (fname : jsstr) (content : result (list fstree)).
#[local] Set Warnings "register-all".

Definition dirent_of (t : fstree) : Dirent :=
  match t with
  | File n => {| d_name := n; d_type := IsFile |}
  | Special n => {| d_name := n; d_type := IsOther |}
  | Directory n _ => {| d_name := n; d_type := IsDirectory |}
  end.

(** What the callback of one entry resolves to: [null], the path of a
    file, or the array of a subdirectory. *)
Inductive walked :=
| WNull
| WPath (p : jsstr)
| WFiles (ps : list jsstr).

(** [.flat(Number.POSITIVE_INFINITY).filter((it) => it)]. *)
Definition flat_filter (items : list walked) : list jsstr :=
  flat_map (fun it =>
              match it with
              | WNull => []
              | WPath p => if nonempty p then [p] else []
              | WFiles ps => filter nonempty ps
              end) items.

(** [Promise.all]: the values in order, or a rejection. When several of
    the promises reject, the source rejects with the one that rejects
    first in time, which the order of the answers of the host decides;
    the model takes the first one in list order. Whether the result is a
    rejection does not depend on this, only which of the errors it
    carries. *)
Fixpoint all {A} (ps : list (result A)) : result (list A) :=
  match ps with
  | [] => Ok []
  | Ok a :: ps' => (rest <- all ps' ;; Ok (a :: rest))%result
  | Err e :: _ => Err e
  end.

(** A call of the callbacks on an entry: the directory path and the
    entry, as [ignoreFn] receives them. *)
Definition visit := (jsstr * Dirent)%type.

Section DeepReadDir.

(** [path.join] of Node. *)
Variable join : list jsstr -> jsstr.
Variables ignoreFn matcherFn : jsstr -> Dirent -> bool.

(** [readdir] of a directory followed by the callback on every entry. *)
Definition read_entries (f : fstree -> list visit * result walked)
    (content : result (list fstree)) : list visit * result (list jsstr) :=
  match content with
  | Err e => ([], Err e)
  | Ok entries =>
      let settled := List.map f entries in
      (concat (List.map fst settled),
       (items <- all (List.map snd settled) ;; Ok (flat_filter items))%result)
  end.

(** The callback [async (dirent) => ...] of [deepReadDir(dirPath, ...)],
    with the entries it is run on. Every callback of a listing runs,
    whatever its siblings settle to. *)
Fixpoint visit_entry (dirPath : jsstr) (t : fstree) : list visit * result walked :=
  let dirent := dirent_of t in
  let path := join [dirPath; d_name dirent] in
  if ignoreFn dirPath dirent then ([(dirPath, dirent)], Ok WNull)
  else
    match t with
    | Directory _ content =>
        let '(seen, files) := read_entries (visit_entry path) content in
        ((dirPath, dirent) :: seen, (ps <- files ;; Ok (WFiles ps))%result)
    | _ =>
        ([(dirPath, dirent)],
         if matcherFn dirPath dirent then Ok (WPath path) else Ok WNull)
    end.

(** [deepReadDir(dirPath, ignoreFn, matcherFn)] on a directory whose
    [readdir] answers [content]: the entries visited and the result. *)
Definition deepReadDir_traced (dirPath : jsstr) (content : result (list fstree))
  : list visit * result (list jsstr) :=
  read_entries (visit_entry dirPath) content.

Definition deepReadDir (dirPath : jsstr) (content : result (list fstree))
  : result (list jsstr) :=
  snd (deepReadDir_traced dirPath content).

(** Two trees under [dirPath] that differ at most below directories for
    which [ignoreFn] answers true: there the contents are unrelated (other
    entries, or a directory that cannot be read). *)
#[local] Set Warnings "-register-all".
Inductive agree_outside_ignored : jsstr -> fstree -> fstree -> Prop :=
| agree_same dirPath t : agree_outside_ignored dirPath t t
| agree_ignored dirPath fname content content' :
    ignoreFn dirPath {| d_name := fname; d_type := IsDirectory |} = true ->
    agree_outside_ignored dirPath
      (Directory fname content) (Directory fname content')
| agree_inside dirPath fname entries entries' :
    Forall2 (agree_outside_ignored (join [dirPath; fname])) entries entries' ->
    agree_outside_ignored dirPath
      (Directory fname (Ok entries)) (Directory fname (Ok entries')).
#[local] Set Warnings "register-all".

(** An entry the callback turns into a path: not ignored, not a
    directory, accepted by [matcherFn]. *)
Definition accepted (v : visit) : bool :=
  negb (ignoreFn (fst v) (snd v))
  && negb (isDirectory (snd v))
  && matcherFn (fst v) (snd v).

(** [join(dirPath, dirent.name)] of a visited entry. *)
Definition path_of (v : visit) : jsstr := join [fst v; d_name (snd v)].

(** The paths of the accepted entries among the visited ones, in the
    order of the visits, the empty paths left out. *)
Definition found (visits : list visit) : list jsstr :=
  filter nonempty (List.map path_of (filter accepted visits)).

(** Every directory the walk enters can be read: an ignored entry is not
    looked into, a directory must list its entries, and these must be
    readable under its path. *)
Fixpoint readable (dirPath : jsstr) (t : fstree) : bool :=
  if ignoreFn dirPath (dirent_of t) then true
  else
    match t with
    | Directory fname (Ok entries) =>
        forallb (readable (join [dirPath; fname])) entries
    | Directory _ (Err _) => false
    | _ => true
    end.

End DeepReadDir.

End Walk.

(** ** Parsed manifests *)

Module Toml.

(** A value of a parsed TOML document as the program can observe it: a
    string, an array, a table, or a scalar (integer, float, boolean,
    date), of which the program only tests the truthiness and takes the
    rendering by [String(v)]. *)
#[local] Set Warnings "-register-all".
Inductive toml :=
| TString (s : jsstr)
| TArray (items : list toml)
| TTable (entries : obj toml)
| TScalar (truthy : bool) (shown : jsstr).
#[local] Set Warnings "register-all".

Definition truthy (v : toml) : bool :=
  match v with
  | TString s => nonempty s
  | TArray _ => true
  | TTable _ => true
  | TScalar t _ => t
  end.

(** The string [`${v}`] gives, when it gives one. *)
Fixpoint to_string (v : toml) : jsstr :=
  match v with
  | TString s => s
  | TArray items => join (lit ",") (List.map to_string items)
  | TTable _ => lit "[object Object]"
  | TScalar _ shown => shown
  end.

(** Whether [`${v}`] gives a string. A table is turned into a string by
    its [toString] method: a table with a key of that name has a value
    there that cannot be called, and its [valueOf] answers the table
    itself, so the template throws a [TypeError]. An array turns each of
    its elements into a string. Strings and scalars always give one. *)
Fixpoint stringifiable (v : toml) : bool :=
  match v with
  | TString _ => true
  | TArray items => forallb stringifiable items
  | TTable entries =>
      match get_own entries (lit "toString") with
      | Some _ => false
      | None => true
      end
  | TScalar _ _ => true
  end.

(** [v[k]] for a name [k] that no prototype defines and that is not an
    index ("git", "branch", "dependencies", "workspace"); [None] is
    [undefined]. *)
Definition prop (v : toml) (k : jsstr) : option toml :=
  match v with
  | TTable entries => get_own entries k
  | _ => None
  end.

Definition digit_char (d : N) : N := (48 + d)%N.

Fixpoint uint_chars (u : Decimal.uint) : jsstr :=
  match u with
  | Decimal.Nil => []
  | Decimal.D0 u' => digit_char 0 :: uint_chars u'
  | Decimal.D1 u' => digit_char 1 :: uint_chars u'
  | Decimal.D2 u' => digit_char 2 :: uint_chars u'
  | Decimal.D3 u' => digit_char 3 :: uint_chars u'
  | Decimal.D4 u' => digit_char 4 :: uint_chars u'
  | Decimal.D5 u' => digit_char 5 :: uint_chars u'
  | Decimal.D6 u' => digit_char 6 :: uint_chars u'
  | Decimal.D7 u' => digit_char 7 :: uint_chars u'
  | Decimal.D8 u' => digit_char 8 :: uint_chars u'
  | Decimal.D9 u' => digit_char 9 :: uint_chars u'
  end.

Definition index_string (i : nat) : jsstr := uint_chars (Nat.to_uint i).

Fixpoint indexed {A} (i : nat) (l : list A) : list (jsstr * A) :=
  match l with
  | [] => []
  | x :: l' => (index_string i, x) :: indexed (S i) l'
  end.

(** [Object.keys(v)] with the value under each key, [(k, v[k])]: the
    entries of a table in enumeration order, the elements of an array or
    the code units of a string under their indices, nothing for a
    scalar. *)
Definition own_entries (v : toml) : list (jsstr * toml) :=
  match v with
  | TTable entries =>
      flat_map (fun k => match get_own entries k with
                         | Some x => [(k, x)]
                         | None => []
                         end) (keys entries)
  | TArray items => indexed 0 items
  | TString s => indexed 0 (List.map (fun c => TString [c]) s)
  | TScalar _ _ => []
  end.

End Toml.

(** ** The manifest scan of [cmdDependencies] (index.js, lines 163-189) *)

Module Manifest.
Import Toml.

(** [a || b] and [a && b] on values that may be [undefined]. *)
Definition js_or (a b : option toml) : option toml :=
  match a with
  | Some v => if truthy v then a else b
  | None => b
  end.

Definition is_truthy (a : option toml) : bool :=
  match a with
  | Some v => truthy v
  | None => false
  end.

(** [configToml["dependencies"] ||
     (configToml["workspace"] && configToml["workspace"]["dependencies"])] *)
Definition configDeps (configToml : toml) : option toml :=
  js_or (prop configToml (lit "dependencies"))
        (match prop configToml (lit "workspace") with
         | Some ws => if truthy ws then prop ws (lit "dependencies") else Some ws
         | None => None
         end).

(** [configDeps[dep]["branch"] ? configDeps[dep]["branch"] : "master"] *)
Definition branch_of (decl : toml) : toml :=
  match prop decl (lit "branch") with
  | Some b => if truthy b then b else TString (lit "master")
  | None => TString (lit "master")
  end.

(** The key [`${git}#${branch}`], when the template gives one. *)
Definition key_of (git branch : toml) : jsstr :=
  to_string git ++ [HASH] ++ to_string branch.

(** [const key = `${git}#${branch}`]: the key, or the [TypeError] of a
    value that cannot be turned into a string. *)
Definition template_key (git branch : toml) : result jsstr :=
  if stringifiable git && stringifiable branch
  then Ok (key_of git branch)
  else Err TypeError.

(** The body of the loop over [Object.keys(configDeps)]. *)
Definition index_dependency (dependencies : obj (list jsstr))
    (entry : jsstr * toml) : result (obj (list jsstr)) :=
  let '(dep, decl) := entry in
  match prop decl (lit "git") with
  | Some git =>
      if truthy git
      then (key <- template_key git (branch_of decl) ;;
            push_name dependencies key dep)%result
      else Ok dependencies
  | None => Ok dependencies
  end.

Fixpoint index_dependencies (dependencies : obj (list jsstr))
    (entries : list (jsstr * toml)) : result (obj (list jsstr)) :=
  match entries with
  | [] => Ok dependencies
  | entry :: rest =>
      (dependencies' <- index_dependency dependencies entry ;;
       index_dependencies dependencies' rest)%result
  end.

(** [catch (err) { throw new Error(`failed decoding file ${file}: ${err}`) }] *)
Definition decoding (file : jsstr) {A} (r : result A) : result A :=
  match r with
  | Ok a => Ok a
  | Err e => Err (Wrapped (lit "failed decoding file " ++ file) e)
  end.

Section Scan.

(** [toml.parse(fs.readFileSync(file))]: the document, or what either of
    the two throws. *)
Variable parse_file : jsstr -> result toml.

(** The body of the loop over the manifest files. *)
Definition scan_file (dependencies : obj (list jsstr)) (file : jsstr)
  : result (obj (list jsstr)) :=
  decoding file
    (configToml <- parse_file file ;;
     match configDeps configToml with
     | Some deps =>
         if truthy deps
         then index_dependencies dependencies (own_entries deps)
         else Ok dependencies
     | None => Ok dependencies
     end)%result.

Fixpoint scan_files (dependencies : obj (list jsstr)) (files : list jsstr)
  : result (obj (list jsstr)) :=
  match files with
  | [] => Ok dependencies
  | file :: rest =>
      (dependencies' <- scan_file dependencies file ;;
       scan_files dependencies' rest)%result
  end.

(** The index [dependencies] when the loop over the files has ended. *)
Definition dependencies (files : list jsstr) : result (obj (list jsstr)) :=
  scan_files [] files.

(** The git declaration of an entry of a dependency table, if it is one,
    as a pair of key and dependency name; and those of a whole table, in
    the order the loop meets them. *)
Definition declaration (entry : jsstr * toml) : list (jsstr * jsstr) :=
  match prop (snd entry) (lit "git") with
  | Some git =>
      if truthy git
      then [(key_of git (branch_of (snd entry)), fst entry)]
      else []
  | None => []
  end.

Definition declared_in (deps : toml) : list (jsstr * jsstr) :=
  flat_map declaration (own_entries deps).

(** The git declarations of a manifest file. *)
Definition declared_by (file : jsstr) : list (jsstr * jsstr) :=
  match parse_file file with
  | Ok configToml =>
      match configDeps configToml with
      | Some deps => if truthy deps then declared_in deps else []
      | None => []
      end
  | Err _ => []
  end.

(** The git declarations of all manifest files, in the order of the
    files. *)
Definition declared (files : list jsstr) : list (jsstr * jsstr) :=
  flat_map declared_by files.

(** The names declared under a key, in order. *)
Definition names_under (key : jsstr) (decls : list (jsstr * jsstr)) : list jsstr :=
  List.map snd (filter (fun d => str_eqb (fst d) key) decls).

End Scan.

End Manifest.

(** ** Console output and the flows *)

Inductive output :=
| LogArgs (rootPath : jsstr) (cargoLock verbose : bool)
    (* [console.log(rootPath, cargoLock, verbose)] *)
| LogValue (v : jsval)
| LogText (s : jsstr)
| LogKeys (ks : list jsstr)
    (* [console.log(Object.keys(index))] *)
| LogJson (index : obj (list jsstr))
    (* [console.log(JSON.stringify(index, null, 2))] *)
| LogError (e : error).

(** A flow that prints and may throw: what it printed, and how it ended. *)
Definition run (A : Type) := (list output * result A)%type.

Definition ret {A} (a : A) : run A := ([], Ok a).

Definition bind {A B} (m : run A) (f : A -> run B) : run B :=
  match m with
  | (out, Ok a) => let '(out', r) := f a in (out ++ out', r)
  | (out, Err e) => (out, Err e)
  end.

Definition lift {A} (r : result A) : run A := ([], r).

Definition console_log (o : output) : run unit := ([o], Ok tt).

Declare Scope run_scope.
Delimit Scope run_scope with run.
Notation "x <- m ;; k" := (bind m (fun x => k))
  (at level 61, m at next level, right associativity) : run_scope.
Notation "m ;; k" := (bind m (fun _ => k))
  (at level 61, right associativity) : run_scope.

(** [gitConfig['remote "origin"']]: [None] when the section is absent,
    otherwise the section with the value of its [url] property. *)
Record GitConfig := {
  remote_origin : option jsval
}.

(** [gitConfig['remote "origin"']["url"]] *)
Definition origin_url (gitConfig : GitConfig) : result jsval :=
  match remote_origin gitConfig with
  | Some url => Ok url
  | None => Err TypeError
  end.

(** What the flows ask of the outside world. *)
Record World := {
  path_join : list jsstr -> jsstr;
    (* [path.join], called [join] in the program *)
  parseGitConfig : jsstr -> result GitConfig;
    (* [parseGitConfig.sync({ path })] *)
  readdir : jsstr -> result (list Walk.fstree);
    (* the tree [readdir] finds under a root *)
  parse_file : jsstr -> result Toml.toml;
    (* [toml.parse(fs.readFileSync(file))] *)
  readFile : jsstr -> result jsstr;
    (* [fs.readFileSync(path).toString("utf-8")] *)
  axios_get : jsstr -> result jsval;
    (* [(await axios.get(url)).data.sha] *)
  exec : jsstr -> jsstr -> result jsstr;
    (* [(await exec(command, { cwd })).stdout] *)
  yellow : jsstr -> jsstr;
  gray : jsstr -> jsstr
    (* [chalk.yellow], [chalk.gray] *)
}.

(** ** The upstream check of [cmdDependencies] (index.js, lines 231-246) *)

Module Verify.

(** [/git\+https:\/\/github.com\/([^/]+)\/([^/]+)(?:.git)?\?branch=([^#]+)#(\w+)/] *)
Definition git_source : regex :=
  rseq [rlit (lit "git+https://github"); RChar dot; rlit (lit "com/");
        RGroup 1 (RPlus (not_char (lit "/"))); rlit (lit "/");
        RGroup 2 (RPlus (not_char (lit "/")));
        ROpt (RSeq (RChar dot) (rlit (lit "git")));
        rlit (lit "?branch=");
        RGroup 3 (RPlus (not_char [HASH])); rlit [HASH];
        RGroup 4 (RPlus word_char)].

(** The request
    [`https://api.github.com/repos/${match[1]}/${match[2].replace(".git", "")}/commits/${match[3]}`] *)
Definition commits_url (m : captures) : jsstr :=
  lit "https://api.github.com/repos/" ++ group 1 m ++ lit "/"
    ++ replace (lit ".git") [] (group 2 m) ++ lit "/commits/" ++ group 3 m.

(** What one "SHA error!" line reports. *)
Record Mismatch := {
  owner : jsstr;
  repo : jsstr;
  branch : jsstr;
  expectedSha : jsstr;
  actualSha : jsval;
  locked_source : jsstr
}.

(** [`SHA error! The latest commit hash is ${sha} for repo
     ${match[1]}/${match[2]}, branch '${match[3]}', got ${match[4]}: \n\t${source}`] *)
Definition sha_error (r : Mismatch) : jsstr :=
  lit "SHA error! The latest commit hash is " ++ to_display (actualSha r)
    ++ lit " for repo " ++ owner r ++ lit "/" ++ repo r
    ++ lit ", branch '" ++ branch r ++ lit "', got " ++ expectedSha r
    ++ lit ": " ++ [LF; 9%N] ++ locked_source r.

Section Check.
Variable w : World.

(** The body of the loop over [Object.keys(cargoLockPackages)]: what it
    asks the hosting API for one source, and the mismatch it reports. *)
Definition check_source (source : jsstr) : result (option Mismatch) :=
  match Regex.exec git_source source with
  | Some m =>
      (sha <- axios_get w (commits_url m) ;;
       if negb (strict_eq_str sha (group 4 m))
       then Ok (Some {| owner := group 1 m; repo := group 2 m;
                        branch := group 3 m; expectedSha := group 4 m;
                        actualSha := sha; locked_source := source |})
       else Ok None)%result
  | None => Ok None
  end.

Definition report (r : option Mismatch) : list output :=
  match r with
  | Some r => [LogText (sha_error r)]
  | None => []
  end.

Fixpoint check_sources (sources : list jsstr) : run unit :=
  match sources with
  | [] => ret tt
  | source :: rest =>
      (r <- lift (check_source source) ;;
       (report r, Ok tt) ;;
       check_sources rest)%run
  end.

End Check.

End Verify.

(** ** [cmdDependencies] (index.js, lines 137-248) *)

Section CmdDependencies.
Variable w : World.
Import Walk.

Definition includes (names : list jsstr) (n : jsstr) : bool :=
  existsb (str_eqb n) names.

(** The [ignoreFn] given to [deepReadDir]. *)
Definition ignoreFn (rootPath : jsstr) (path : jsstr) (dirent : Dirent) : bool :=
  if isDirectory dirent
  then (str_eqb path rootPath
        && includes [lit "target"; lit ".git"; lit ".github"] (d_name dirent))
       || includes [lit "node_modules"] (d_name dirent)
  else false.

(** The [matcherFn] given to [deepReadDir]. *)
Definition matcherFn (_ : jsstr) (dirent : Dirent) : bool :=
  isFile dirent && str_eqb (d_name dirent) (lit "Cargo.toml").

Definition print_index (verbose : bool) (index : obj (list jsstr)) : run unit :=
  if verbose then console_log (LogJson index)
  else console_log (LogKeys (keys index)).

Definition cmdDependencies (rootPath : jsstr) (cargoLock verbose : bool)
  : run unit :=
  (console_log (LogArgs rootPath cargoLock verbose) ;;
   gitConfig <- lift (parseGitConfig w (path_join w [rootPath; lit ".git"; lit "config"])) ;;
   url <- lift (origin_url gitConfig) ;;
   console_log (LogValue url) ;;
   files <- lift (deepReadDir (path_join w) (ignoreFn rootPath) matcherFn
                    rootPath (readdir w rootPath)) ;;
   dependencies <- lift (Manifest.dependencies (parse_file w) files) ;;
   console_log (LogText (lit "Cargo.toml")) ;;
   print_index verbose dependencies ;;
   if cargoLock then
     cargoLock <- lift (readFile w (path_join w [rootPath; lit "Cargo.lock"])) ;;
     cargoLockPackages <- lift (Lock.cargoLockPackages cargoLock) ;;
     console_log (LogText (lit "Cargo.lock")) ;;
     print_index verbose cargoLockPackages ;;
     Verify.check_sources w (keys cargoLockPackages)
   else ret tt)%run.

End CmdDependencies.

(** What a line of a run becomes without [--verbose]: the echo of the
    arguments shows the flag unset, an index printed as JSON is printed
    as its keys, every other line is the same. *)
Definition terse (o : output) : output :=
  match o with
  | LogArgs rootPath cargoLock _ => LogArgs rootPath cargoLock false
  | LogJson index => LogKeys (keys index)
  | _ => o
  end.

(** ** [cmdCommits] (index.js, lines 75-135) *)

Module Commits.

(** [/github.com:([^\/]+)\/([^.]+)(?:\.git)?/] *)
Definition origin_pattern : regex :=
  rseq [rlit (lit "github"); RChar dot; rlit (lit "com:");
        RGroup 1 (RPlus (not_char (lit "/"))); rlit (lit "/");
        RGroup 2 (RPlus (not_char (lit ".")));
        ROpt (rlit (lit ".git"))].

(** [url.match(pattern)] followed by [match[1]], [match[2]]: a [TypeError]
    when the value is no string, and when the pattern does not match. *)
Definition match_origin (url : jsval) : result captures :=
  match url with
  | JStr s =>
      match Regex.exec origin_pattern s with
      | Some m => Ok m
      | None => Err TypeError
      end
  | _ => Err TypeError
  end.

Record CommitRecord := {
  sha : jsstr;
  subject : jsstr
}.

(** [const parts = commit.split(" "); const sha = parts.shift();
     const subject = parts.join(" ");] ([split] never answers the empty
    array, so [shift] always finds a first part). *)
Definition parse_commit (commit : jsstr) : CommitRecord :=
  match split SP commit with
  | first :: parts => {| sha := first; subject := join [SP] parts |}
  | [] => {| sha := []; subject := [] |}
  end.

(** The first loop: the commits of the log before the first one whose sha
    is [lastUpstreamCommit]. *)
Fixpoint extraCommits (lastUpstreamCommit : jsstr) (commits : list jsstr)
  : list CommitRecord :=
  match commits with
  | [] => []
  | commit :: rest =>
      let c := parse_commit commit in
      if str_eqb (sha c) lastUpstreamCommit then []
      else c :: extraCommits lastUpstreamCommit rest
  end.

(** [`git branch ${currentBranch} --contains ${extraCommit.sha}`] *)
Definition contains_command (currentBranch sha : jsstr) : jsstr :=
  lit "git branch " ++ currentBranch ++ lit " --contains " ++ sha.

(** An array, like every object, is truthy: the empty one too. *)
Definition array_truthy {A} (a : list A) : bool := true.

Section Flow.
Variable w : World.

(** The second loop: the extra commits the current branch does not
    contain. *)
Fixpoint needCommits (path currentBranch : jsstr) (extra : list CommitRecord)
  : result (list CommitRecord) :=
  match extra with
  | [] => Ok []
  | extraCommit :: rest =>
      (stdout <- exec w (contains_command currentBranch (sha extraCommit)) path ;;
       let hasCommit := nonempty (trim stdout) in
       need <- needCommits path currentBranch rest ;;
       Ok (if negb hasCommit then extraCommit :: need else need))%result
  end.

(** The containment query answers nothing for the commit: the current
    branch lacks it. *)
Definition lacks (path currentBranch : jsstr) (c : CommitRecord) : bool :=
  match exec w (contains_command currentBranch (sha c)) path with
  | Ok stdout => negb (nonempty (trim stdout))
  | Err _ => false
  end.

(** [`${chalk.yellow(sha)} ${chalk.gray(`${gitUrl}/commit/${sha}`)} ${subject} `] *)
Definition commit_line (gitUrl : jsstr) (c : CommitRecord) : jsstr :=
  yellow w (sha c) ++ [SP] ++ gray w (gitUrl ++ lit "/commit/" ++ sha c)
    ++ [SP] ++ subject c ++ [SP].

Definition need_header (currentBranch : jsstr) : jsstr :=
  lit "Need the following commits on branch " ++ currentBranch ++ lit ":" ++ [LF].

Definition need_message (currentBranch gitUrl : jsstr)
    (need : list CommitRecord) : jsstr :=
  need_header currentBranch ++ join [LF] (List.map (commit_line gitUrl) need).

(** The body of the [try] block. *)
Definition audit (path branch branchUpstream : jsstr) : run unit :=
  (gitConfig <- lift (parseGitConfig w (path_join w [path; lit ".git"; lit "config"])) ;;
   url <- lift (origin_url gitConfig) ;;
   console_log (LogValue url) ;;
   m <- lift (match_origin url) ;;
   let gitUrl := lit "https://github.com/" ++ group 1 m ++ lit "/" ++ group 2 m in
   stdout <- lift (exec w (lit "git branch --show-current") path) ;;
   let currentBranch := trim stdout in
   stdout <- lift (exec w (lit "git log -1 --pretty=format:'%h' remotes/upstream/"
                             ++ branchUpstream) path) ;;
   let lastUpstreamCommit := trim stdout in
   stdout <- lift (exec w (lit "git log --pretty=format:'%h %s' remotes/origin/"
                             ++ branch) path) ;;
   let extra := extraCommits lastUpstreamCommit (split LF (trim stdout)) in
   need <- lift (needCommits path currentBranch extra) ;;
   if array_truthy need
   then console_log (LogText (need_message currentBranch gitUrl need))
   else ret tt)%run.

(** [try { ... } catch (err) { console.log(err); throw new Error(...) }] *)
Definition cmdCommits (path branch branchUpstream : jsstr) : run unit :=
  match audit path branch branchUpstream with
  | (out, Ok done) => (out, Ok done)
  | (out, Err err) =>
      (out ++ [LogError err],
       Err (Wrapped (lit "failed evaluating commits for " ++ path) err))
  end.

End Flow.

End Commits.

(** ** The command handlers (index.js, lines 43-45 and 64-70) *)

Module Cli.

(** A finished handler: what went to standard output and to standard
    error, and how the promise the handler returned has settled. *)
Record Settled := {
  stdout : list output;
  stderr : list output;
  promise : result unit
}.

(** [flow.catch(console.error)] *)
Definition catch_console_error (flow : run unit) : Settled :=
  match flow with
  | (out, Ok done) => {| stdout := out; stderr := []; promise := Ok done |}
  | (out, Err err) =>
      {| stdout := out; stderr := [LogError err]; promise := Ok tt |}
  end.

(** The handler of [deps]. *)
Definition deps (w : World) (path : jsstr) (lock verbose : bool) : Settled :=
  catch_console_error (cmdDependencies w path lock verbose).

(** The handler of [commits]. *)
Definition commits (w : World) (path previousBranch previousBranchUpstream : jsstr)
  : Settled :=
  catch_console_error
    (Commits.cmdCommits w path previousBranch previousBranchUpstream).


(** An error occurred in a flow: it ended by a throw. *)
Definition failed {A} (flow : run A) : bool :=
  match snd flow with
  | Ok _ => false
  | Err _ => true
  end.

(** The two subcommands with their parsed arguments. *)
Inductive invocation :=
| Deps (path : jsstr) (lock verbose : bool)
| CommitsOf (path previousBranch previousBranchUpstream : jsstr).

(** The flow a subcommand starts. *)
Definition flow (w : World) (i : invocation) : run unit :=
  match i with
  | Deps path lock verbose => cmdDependencies w path lock verbose
  | CommitsOf path previousBranch previousBranchUpstream =>
      Commits.cmdCommits w path previousBranch previousBranchUpstream
  end.


End Cli.

(** ** The errors of a run

    The places of the two flows where an operation on the world can end
    in an error, with what has to hold for the operation to be run on
    data the earlier operations gave. *)

Module Failure.





End Failure.

(** ** Concrete inputs used to run the flows *)

Module Examples.

Definition NL : jsstr := [LF].

Definition quoted (s : jsstr) : jsstr := [QUOTE] ++ s ++ [QUOTE].

(** A package block of a lockfile, with or without a source line. *)
Definition block (name : jsstr) (source : option jsstr) : jsstr :=
  lit "[[package]]" ++ NL
    ++ lit "name = " ++ quoted name ++ NL
    ++ lit "version = " ++ quoted (lit "0.1.0") ++ NL
    ++ match source with
       | Some s => lit "source = " ++ quoted s ++ NL
       | None => []
       end
    ++ NL.

Definition registry : jsstr :=
  lit "registry+https://github.com/rust-lang/crates.io-index".

(** One block: N = 1. *)
Definition lock_one : jsstr := block (lit "serde") (Some registry).

(** Two blocks: N = 2. *)
Definition lock_two : jsstr :=
  block (lit "serde") (Some registry) ++ block (lit "tokio") (Some registry).

(** Three blocks, the second one (a local crate) without a source line. *)
Definition lock_local : jsstr :=
  block (lit "serde") (Some registry)
    ++ block (lit "my-crate") None
    ++ block (lit "tokio") (Some registry).

(** A checkout whose origin is on the hosting service, with a tracked
    branch log [c3, c2, c1], the upstream tip [c1], and a local branch
    [main] that contains [c2] and [c1] but not [c3]. *)
Definition git_log : jsstr :=
  lit "c3 third change" ++ NL ++ lit "c2 second change" ++ NL
    ++ lit "c1 first change" ++ NL.

Definition world : World := {|
  path_join := Js.join (lit "/");
  parseGitConfig := fun _ =>
    Ok {| remote_origin := Some (JStr (lit "git@github.com:nbaztec/subsgrade.git")) |};
  readdir := fun _ => Ok [];
  parse_file := fun _ => Err (HostError (lit "ENOENT"));
  readFile := fun _ => Err (HostError (lit "ENOENT"));
  axios_get := fun _ => Err (HostError (lit "ECONNREFUSED"));
  exec := fun command _ =>
    if str_eqb command (lit "git branch --show-current")
    then Ok (lit "main" ++ NL)
    else if str_eqb command
              (lit "git log -1 --pretty=format:'%h' remotes/upstream/stable")
    then Ok (lit "c1")
    else if str_eqb command
              (lit "git log --pretty=format:'%h %s' remotes/origin/stable")
    then Ok git_log
    else if str_eqb command (lit "git branch main --contains c2")
    then Ok (lit "* main" ++ NL)
    else if str_eqb command (lit "git branch main --contains c3")
    then Ok []
    else Err (HostError (lit "Command failed"));
  yellow := fun s => s;
  gray := fun s => s
|}.

(** The same checkout when the current branch contains every commit. *)
Definition world_up_to_date : World := {|
  path_join := path_join world;
  parseGitConfig := parseGitConfig world;
  readdir := readdir world;
  parse_file := parse_file world;
  readFile := readFile world;
  axios_get := axios_get world;
  exec := fun command cwd =>
    if startsWith command (lit "git branch main --contains ")
    then Ok (lit "* main" ++ NL)
    else exec world command cwd;
  yellow := yellow world;
  gray := gray world
|}.

(** A locked git source pinned to [abc123] on branch [master], and the
    groups the pattern of git sources finds in it. *)
Definition git_locked : jsstr :=
  lit "git+https://github.com/paritytech/substrate?branch=master#abc123".

Definition git_locked_match : captures :=
  match Regex.exec Verify.git_source git_locked with
  | Some m => m
  | None => []
  end.

(** The same world when the hosting API answers [sha] for that branch. *)
Definition answering (sha : jsval) : World := {|
  path_join := path_join world;
  parseGitConfig := parseGitConfig world;
  readdir := readdir world;
  parse_file := parse_file world;
  readFile := readFile world;
  axios_get := fun url =>
    if str_eqb url
         (lit "https://api.github.com/repos/paritytech/substrate/commits/master")
    then Ok sha
    else Err (HostError (lit "Request failed with status code 404"));
  exec := exec world;
  yellow := yellow world;
  gray := gray world
|}.

(** A root with a manifest and a build directory that holds another
    manifest; and the same root when the build directory cannot be read. *)
Definition tree_with_target : list Walk.fstree :=
  [Walk.Directory (lit "target")
     (Ok [Walk.File (lit "Cargo.toml");
          Walk.Directory (lit "debug") (Ok [Walk.File (lit "Cargo.toml")])]);
   Walk.Directory (lit "crates")
     (Ok [Walk.Directory (lit "node_modules") (Ok [Walk.File (lit "Cargo.toml")]);
          Walk.File (lit "Cargo.toml")]);
   Walk.File (lit "Cargo.toml")].

Definition tree_target_unreadable : list Walk.fstree :=
  [Walk.Directory (lit "target") (Err (HostError (lit "EACCES")));
   Walk.Directory (lit "crates")
     (Ok [Walk.Directory (lit "node_modules") (Ok []);
          Walk.File (lit "Cargo.toml")]);
   Walk.File (lit "Cargo.toml")].

(** A manifest with a registry dependency, a dependency given by a
    version table, a git dependency without a branch and one on a branch. *)
Definition manifest : Toml.toml :=
  Toml.TTable
    [(lit "package", Toml.TTable [(lit "name", Toml.TString (lit "my-crate"))]);
     (lit "dependencies",
      Toml.TTable
        [(lit "serde", Toml.TString (lit "1.0"));
         (lit "tokio", Toml.TTable [(lit "version", Toml.TString (lit "1"))]);
         (lit "sp-core",
          Toml.TTable
            [(lit "git", Toml.TString (lit "https://github.com/paritytech/substrate"))]);
         (lit "sp-io",
          Toml.TTable
            [(lit "git", Toml.TString (lit "https://github.com/paritytech/substrate"));
             (lit "branch", Toml.TString (lit "dev"))])])].

Definition parse_manifest (file : jsstr) : result Toml.toml :=
  if str_eqb file (lit "Cargo.toml") then Ok manifest
  else Err (HostError (lit "ENOENT")).

Definition manifest_index : obj (list jsstr) :=
  [(lit "https://github.com/paritytech/substrate#master", [lit "sp-core"]);
   (lit "https://github.com/paritytech/substrate#dev", [lit "sp-io"])].

(** Two crates of one checkout that take [foo] and [bar] from the same
    repository and branch. *)
Definition git_dependency (dep url branch : jsstr) : Toml.toml :=
  Toml.TTable
    [(lit "dependencies",
      Toml.TTable
        [(dep, Toml.TTable [(lit "git", Toml.TString url);
                            (lit "branch", Toml.TString branch)])])].

Definition world_two_crates : World := {|
  path_join := path_join world;
  parseGitConfig := parseGitConfig world;
  readdir := fun _ =>
    Ok [Walk.Directory (lit "a") (Ok [Walk.File (lit "Cargo.toml")]);
        Walk.Directory (lit "b") (Ok [Walk.File (lit "Cargo.toml")])];
  parse_file := fun file =>
    if str_eqb file (lit "/repo/a/Cargo.toml")
    then Ok (git_dependency (lit "foo") (lit "https://example.com/foo") (lit "dev"))
    else if str_eqb file (lit "/repo/b/Cargo.toml")
    then Ok (git_dependency (lit "bar") (lit "https://example.com/foo") (lit "dev"))
    else Err (HostError (lit "ENOENT"));
  readFile := readFile world;
  axios_get := axios_get world;
  exec := exec world;
  yellow := yellow world;
  gray := gray world
|}.

(** The same checkout without a [remote "origin"] section. *)
Definition world_no_origin : World := {|
  path_join := path_join world;
  parseGitConfig := fun _ => Ok {| remote_origin := None |};
  readdir := readdir world;
  parse_file := parse_file world;
  readFile := readFile world;
  axios_get := axios_get world;
  exec := exec world;
  yellow := yellow world;
  gray := gray world
|}.

End Examples.

(** ** More concrete inputs *)

Module MoreExamples.

(** The manifest of a workspace root: no top-level dependency table, one
    git dependency under [workspace.dependencies]. *)
Definition workspace_manifest : Toml.toml :=
  Toml.TTable
    [(lit "workspace",
      Toml.TTable
        [(lit "members", Toml.TArray [Toml.TString (lit "crates/a")]);
         (lit "dependencies",
          Toml.TTable
            [(lit "sp-core",
              Toml.TTable
                [(lit "git",
                  Toml.TString (lit "https://github.com/paritytech/substrate"))])])])].

Definition parse_workspace (file : jsstr) : result Toml.toml :=
  if str_eqb file (lit "Cargo.toml") then Ok workspace_manifest
  else Err (HostError (lit "ENOENT")).

(** The example checkout when its origin is given by an https address. *)
Definition world_https : World := {|
  path_join := path_join Examples.world;
  parseGitConfig := fun _ =>
    Ok {| remote_origin :=
            Some (JStr (lit "https://github.com/nbaztec/subsgrade.git")) |};
  readdir := readdir Examples.world;
  parse_file := parse_file Examples.world;
  readFile := readFile Examples.world;
  axios_get := axios_get Examples.world;
  exec := exec Examples.world;
  yellow := yellow Examples.world;
  gray := gray Examples.world
|}.

(** A manifest whose git value is a table with a [toString] key, next to
    the example manifest. *)
Definition odd_manifest : Toml.toml :=
  Toml.TTable
    [(lit "dependencies",
      Toml.TTable
        [(lit "foo",
          Toml.TTable
            [(lit "git",
              Toml.TTable [(lit "toString", Toml.TString (lit "x"))])])])].

Definition parse_odd (file : jsstr) : result Toml.toml :=
  if str_eqb file (lit "odd/Cargo.toml") then Ok odd_manifest
  else Examples.parse_manifest file.

End MoreExamples.

(** * Properties *)

Unset Implicit Arguments.

(** ** Strings *)

Lemma str_eqb_eq (a b : jsstr) : str_eqb a b = true <-> a = b.
Proof.
  revert b; induction a as [|x a IH]; intros [|y b]; simpl;
    try (split; [discriminate | congruence]); try tauto.
  rewrite andb_true_iff, N.eqb_eq, IH. split.
  - intros [-> ->]; reflexivity.
  - intros H; injection H; auto.
Qed.

Lemma str_eqb_refl (a : jsstr) : str_eqb a a = true.
Proof. apply str_eqb_eq; reflexivity. Qed.

Lemma str_eqb_neq (a b : jsstr) : a <> b -> str_eqb a b = false.
Proof.
  intros H. destruct (str_eqb a b) eqn:E; [|reflexivity].
  apply str_eqb_eq in E. contradiction.
Qed.

Lemma split_nonempty (sep : N) (s : jsstr) : split sep s <> [].
Proof.
  destruct s as [|c s]; simpl; [discriminate|].
  destruct (N.eqb c sep); [discriminate|].
  destruct (split sep s); discriminate.
Qed.

(** Up to the first separator, [split] cuts off the first piece. *)
Lemma split_first (sep : N) (piece rest : jsstr) :
  ~ In sep piece -> split sep (piece ++ sep :: rest) = piece :: split sep rest.
Proof.
  induction piece as [|c piece IH]; simpl; intros H.
  - rewrite N.eqb_refl. reflexivity.
  - destruct (N.eqb_spec c sep) as [->|_]; [exfalso; auto|].
    rewrite IH by auto. reflexivity.
Qed.

Lemma join_cons_head (sep : jsstr) (c : N) (p : jsstr) (rest : list jsstr) :
  Js.join sep ((c :: p) :: rest) = c :: Js.join sep (p :: rest).
Proof. destruct rest; reflexivity. Qed.

(** [parts.join(" ")] undoes [split(" ")]. *)
Lemma join_split (sep : N) (s : jsstr) : Js.join [sep] (split sep s) = s.
Proof.
  induction s as [|c s IH]; simpl; [reflexivity|].
  destruct (N.eqb_spec c sep) as [->|_].
  - pose proof (split_nonempty sep s) as Hne.
    destruct (split sep s) as [|p ps]; [contradiction|].
    simpl in *. rewrite IH. reflexivity.
  - pose proof (split_nonempty sep s) as Hne.
    destruct (split sep s) as [|p ps]; [contradiction|].
    rewrite join_cons_head, IH. reflexivity.
Qed.

(** ** The commit audit *)

Section CommitFacts.
Import Commits.

Lemma parse_commit_line (sha0 subject0 : jsstr) :
  ~ In SP sha0 ->
  parse_commit (sha0 ++ SP :: subject0) = {| sha := sha0; subject := subject0 |}.
Proof.
  intros H. unfold parse_commit. rewrite split_first by assumption.
  rewrite join_split. reflexivity.
Qed.

Lemma extraCommits_before (tip : jsstr) (before : list jsstr) :
  Forall (fun commit => sha (parse_commit commit) <> tip) before ->
  forall rest,
    extraCommits tip (before ++ rest)
    = List.map parse_commit before ++ extraCommits tip rest.
Proof.
  induction 1 as [|commit before Hc _ IH]; intros rest; simpl; [reflexivity|].
  rewrite (str_eqb_neq _ _ Hc), IH. reflexivity.
Qed.

End CommitFacts.

(** C9. The list of extra commits is the log cut off before the first
    commit whose sha is the tip of the upstream branch: when no commit
    before a line has that sha, everything before the line is extra, the
    line itself and all that follows it is dropped; and when no line of
    the log has that sha, every commit of the log is extra. *)
Theorem extraCommits_truncates_at_boundary
    (lastUpstreamCommit : jsstr) (before : list jsstr) :
  Forall (fun commit =>
            Commits.sha (Commits.parse_commit commit) <> lastUpstreamCommit)
         before ->
  (forall boundary after,
      Commits.sha (Commits.parse_commit boundary) = lastUpstreamCommit ->
      Commits.extraCommits lastUpstreamCommit (before ++ boundary :: after)
      = List.map Commits.parse_commit before)
  /\ Commits.extraCommits lastUpstreamCommit before
     = List.map Commits.parse_commit before.
Proof.
  intros Hbefore. split.
  - intros boundary after Hb.
    rewrite extraCommits_before by assumption. simpl.
    rewrite Hb, str_eqb_refl. apply app_nil_r.
  - rewrite <- (app_nil_r before) at 1.
    rewrite extraCommits_before by assumption. apply app_nil_r.
Qed.

Lemma extraCommits_truncates_witness :
  (Commits.extraCommits (lit "c1")
     ([lit "c3 third change"; lit "c2 second change"]
        ++ lit "c1 first change" :: [lit "c0 root"])
   = List.map Commits.parse_commit [lit "c3 third change"; lit "c2 second change"])
  /\ Commits.extraCommits (lit "c1") [lit "c3 third change"; lit "c2 second change"]
     = List.map Commits.parse_commit [lit "c3 third change"; lit "c2 second change"].
Proof.
  destruct (@extraCommits_truncates_at_boundary (lit "c1")
              [lit "c3 third change"; lit "c2 second change"]) as [Hcut Hall].
  - repeat constructor; vm_compute; discriminate.
  - split; [apply Hcut; reflexivity | exact Hall].
Defined.

(** C4. With the log [c3, c2, c1] of the tracked branch (newest first,
    each line a sha, a space and a subject) and [c1] the tip of the
    upstream branch, the extra commits are [c3] and [c2]; and when the
    containment query of the current branch answers something for [c2]
    and nothing for [c3], the need list is exactly [c3]. *)
Theorem commit_audit_c3_c2_c1
    (w : World) (path currentBranch c1 c2 c3 s1 s2 s3 out2 out3 : jsstr) :
  ~ In SP c1 -> ~ In SP c2 -> ~ In SP c3 ->
  c3 <> c1 -> c2 <> c1 ->
  exec w (Commits.contains_command currentBranch c2) path = Ok out2 ->
  trim out2 <> [] ->
  exec w (Commits.contains_command currentBranch c3) path = Ok out3 ->
  trim out3 = [] ->
  Commits.extraCommits c1 [c3 ++ SP :: s3; c2 ++ SP :: s2; c1 ++ SP :: s1]
  = [{| Commits.sha := c3; Commits.subject := s3 |};
     {| Commits.sha := c2; Commits.subject := s2 |}]
  /\ Commits.needCommits w path currentBranch
       (Commits.extraCommits c1 [c3 ++ SP :: s3; c2 ++ SP :: s2; c1 ++ SP :: s1])
     = Ok [{| Commits.sha := c3; Commits.subject := s3 |}].
Proof.
  intros H1 H2 H3 H31 H21 E2 T2 E3 T3.
  assert (Hextra :
    Commits.extraCommits c1 [c3 ++ SP :: s3; c2 ++ SP :: s2; c1 ++ SP :: s1]
    = [{| Commits.sha := c3; Commits.subject := s3 |};
       {| Commits.sha := c2; Commits.subject := s2 |}]).
  { simpl. rewrite !parse_commit_line by assumption. simpl.
    rewrite (str_eqb_neq _ _ H31), (str_eqb_neq _ _ H21), str_eqb_refl. reflexivity. }
  split; [exact Hextra|].
  rewrite Hextra. simpl. rewrite E3, E2. simpl. rewrite T3.
  destruct (trim out2); [contradiction|]. reflexivity.
Qed.

Lemma commit_audit_c3_c2_c1_witness :
  Commits.extraCommits (lit "c1")
    [lit "c3" ++ SP :: lit "third change"; lit "c2" ++ SP :: lit "second change";
     lit "c1" ++ SP :: lit "first change"]
  = [{| Commits.sha := lit "c3"; Commits.subject := lit "third change" |};
     {| Commits.sha := lit "c2"; Commits.subject := lit "second change" |}]
  /\ Commits.needCommits Examples.world (lit ".") (lit "main")
       (Commits.extraCommits (lit "c1")
          [lit "c3" ++ SP :: lit "third change";
           lit "c2" ++ SP :: lit "second change";
           lit "c1" ++ SP :: lit "first change"])
     = Ok [{| Commits.sha := lit "c3"; Commits.subject := lit "third change" |}].
Proof.
  apply (@commit_audit_c3_c2_c1 Examples.world (lit ".") (lit "main")
           (lit "c1") (lit "c2") (lit "c3")
           (lit "first change") (lit "second change") (lit "third change")
           (lit "* main" ++ Examples.NL) []);
    try reflexivity; vm_compute; intuition discriminate.
Defined.

Lemma need_message_nil (w : World) (currentBranch gitUrl : jsstr) :
  Commits.need_message w currentBranch gitUrl [] = Commits.need_header currentBranch.
Proof. unfold Commits.need_message. cbn [List.map Js.join]. apply app_nil_r. Qed.

(** C10. Every audit that runs to its end prints the "Need the following
    commits on branch ..." report, whatever the need list is: the guard
    tests an array, which is truthy also when empty, and with an empty
    need list the report is the header line with nothing after it. *)
Theorem need_report_printed_unconditionally
    (w : World) (path branch branchUpstream : jsstr) (out : list output) :
  Commits.cmdCommits w path branch branchUpstream = (out, Ok tt) ->
  Commits.array_truthy (@nil Commits.CommitRecord) = true
  /\ exists url gitUrl currentBranch extra need,
       Commits.needCommits w path currentBranch extra = Ok need
       /\ out = [LogValue url;
                 LogText (Commits.need_message w currentBranch gitUrl need)]
       /\ (need = [] ->
           out = [LogValue url; LogText (Commits.need_header currentBranch)]).
Proof.
  intros Hrun. split; [reflexivity|].
  unfold Commits.cmdCommits in Hrun.
  destruct (Commits.audit w path branch branchUpstream) as [o [[]|e]] eqn:Haudit;
    [|discriminate].
  injection Hrun as ->.
  unfold Commits.audit, bind, lift, console_log in Haudit.
  destruct (parseGitConfig w _) as [gitConfig|]; [|discriminate].
  destruct (origin_url gitConfig) as [url|]; [|discriminate].
  destruct (Commits.match_origin url) as [m|]; [|discriminate].
  destruct (exec w (lit "git branch --show-current") path) as [o1|];
    [|discriminate].
  destruct (exec w (_ ++ branchUpstream) path) as [o2|]; [|discriminate].
  destruct (exec w (_ ++ branch) path) as [o3|]; [|discriminate].
  destruct (Commits.needCommits w path (trim o1) _) as [need|] eqn:Hneed;
    [|discriminate].
  simpl in Haudit. injection Haudit as <-.
  eexists url, _, (trim o1), _, need.
  split; [exact Hneed|]. split; [reflexivity|].
  intros ->. rewrite need_message_nil. reflexivity.
Qed.

Lemma need_report_printed_witness :
  Commits.array_truthy (@nil Commits.CommitRecord) = true
  /\ exists url gitUrl currentBranch extra need,
       Commits.needCommits Examples.world_up_to_date (lit ".") currentBranch extra
       = Ok need
       /\ [LogValue (JStr (lit "git@github.com:nbaztec/subsgrade.git"));
           LogText (lit "Need the following commits on branch main:" ++ [LF])]
          = [LogValue url;
             LogText (Commits.need_message Examples.world_up_to_date
                        currentBranch gitUrl need)]
       /\ (need = [] ->
           [LogValue (JStr (lit "git@github.com:nbaztec/subsgrade.git"));
            LogText (lit "Need the following commits on branch main:" ++ [LF])]
           = [LogValue url; LogText (Commits.need_header currentBranch)]).
Proof.
  apply (@need_report_printed_unconditionally Examples.world_up_to_date
           (lit ".") (lit "stable") (lit "stable")).
  vm_compute. reflexivity.
Defined.

(** ** The handlers *)



(** ** The upstream check *)

Lemma strict_eq_str_eq (v : jsval) (s : jsstr) :
  strict_eq_str v s = true <-> v = JStr s.
Proof.
  destruct v as [|s'|shown]; simpl; try (split; discriminate).
  rewrite str_eqb_eq. split; [intros ->; reflexivity | congruence].
Qed.

Lemma check_sources_cons (w : World) (source : jsstr) (rest : list jsstr)
    (r : option Verify.Mismatch) :
  Verify.check_source w source = Ok r ->
  Verify.check_sources w (source :: rest)
  = (Verify.report r ++ fst (Verify.check_sources w rest),
     snd (Verify.check_sources w rest)).
Proof.
  intros H. simpl. unfold bind, lift. rewrite H.
  destruct (Verify.check_sources w rest) as [o res]. reflexivity.
Qed.

(** C5. For a locked source that matches the pattern of git sources, once
    the hosting API has answered with a commit sha: when that sha is the
    pinned one (the same string, case included) the loop reports nothing
    for the source; when it is anything else the loop prints exactly one
    report for the source, whose expected sha is the pinned one and whose
    actual sha is the one the API answered: the line "SHA error! The
    latest commit hash is <actual> for repo <owner>/<repo>, branch
    '<branch>', got <pinned>: ", a line feed, a tab and the source. *)
Theorem upstream_check_reports_mismatch
    (w : World) (source : jsstr) (m : captures) (sha : jsval) :
  Regex.exec Verify.git_source source = Some m ->
  axios_get w (Verify.commits_url m) = Ok sha ->
  (sha = JStr (group 4 m) ->
   Verify.check_source w source = Ok None
   /\ forall rest,
        Verify.check_sources w (source :: rest) = Verify.check_sources w rest)
  /\ (sha <> JStr (group 4 m) ->
      exists r,
        Verify.check_source w source = Ok (Some r)
        /\ Verify.expectedSha r = group 4 m
        /\ Verify.actualSha r = sha
        /\ Verify.owner r = group 1 m
        /\ Verify.repo r = group 2 m
        /\ Verify.branch r = group 3 m
        /\ forall rest,
             Verify.check_sources w (source :: rest)
             = (LogText
                  (lit "SHA error! The latest commit hash is "
                     ++ to_display sha
                     ++ lit " for repo " ++ group 1 m ++ lit "/" ++ group 2 m
                     ++ lit ", branch '" ++ group 3 m
                     ++ lit "', got " ++ group 4 m
                     ++ lit ": " ++ [LF; 9%N] ++ source)
                  :: fst (Verify.check_sources w rest),
                snd (Verify.check_sources w rest))).
Proof.
  intros Hm Hget. split.
  - intros Heq.
    assert (Hc : Verify.check_source w source = Ok None).
    { unfold Verify.check_source. rewrite Hm. simpl. rewrite Hget. simpl.
      apply strict_eq_str_eq in Heq. rewrite Heq. reflexivity. }
    split; [exact Hc|]. intros rest.
    rewrite (@check_sources_cons w source rest None Hc). simpl.
    destruct (Verify.check_sources w rest); reflexivity.
  - intros Hneq.
    assert (Hs : strict_eq_str sha (group 4 m) = false).
    { destruct (strict_eq_str sha (group 4 m)) eqn:E; [|reflexivity].
      apply strict_eq_str_eq in E. contradiction. }
    eexists. split.
    { unfold Verify.check_source. rewrite Hm. simpl. rewrite Hget. simpl.
      rewrite Hs. reflexivity. }
    repeat (split; [reflexivity|]). intros rest.
    erewrite check_sources_cons.
    2:{ unfold Verify.check_source. rewrite Hm. simpl. rewrite Hget. simpl.
        rewrite Hs. reflexivity. }
    reflexivity.
Qed.

Lemma upstream_check_witness :
  Verify.check_sources (Examples.answering (JStr (lit "abc123")))
    [Examples.git_locked] = ([], Ok tt)
  /\ (exists r,
        Verify.check_source (Examples.answering (JStr (lit "def456")))
          Examples.git_locked = Ok (Some r)
        /\ Verify.expectedSha r = lit "abc123"
        /\ Verify.actualSha r = JStr (lit "def456"))
  /\ Verify.check_sources (Examples.answering (JStr (lit "def456")))
       [Examples.git_locked]
     = ([LogText
           (lit "SHA error! The latest commit hash is def456 for repo paritytech/substrate, branch 'master', got abc123: "
              ++ [LF; 9%N]
              ++ lit "git+https://github.com/paritytech/substrate?branch=master#abc123")],
        Ok tt).
Proof.
  split; [|split].
  - destruct (@upstream_check_reports_mismatch
                (Examples.answering (JStr (lit "abc123")))
                Examples.git_locked Examples.git_locked_match
                (JStr (lit "abc123")) eq_refl eq_refl) as [Hsame _].
    destruct (Hsame eq_refl) as [_ Hrest]. rewrite (Hrest []). reflexivity.
  - destruct (@upstream_check_reports_mismatch
                (Examples.answering (JStr (lit "def456")))
                Examples.git_locked Examples.git_locked_match
                (JStr (lit "def456")) eq_refl eq_refl) as [_ Hdiff].
    destruct Hdiff as (r & Hr & He & Ha & _).
    + vm_compute. discriminate.
    + exists r. split; [exact Hr|]. split; [rewrite He; reflexivity | exact Ha].
  - destruct (@upstream_check_reports_mismatch
                (Examples.answering (JStr (lit "def456")))
                Examples.git_locked Examples.git_locked_match
                (JStr (lit "def456")) eq_refl eq_refl) as [_ Hdiff].
    destruct Hdiff as (r & _ & _ & _ & _ & _ & _ & Hrest).
    + vm_compute. discriminate.
    + rewrite (Hrest []). reflexivity.
Defined.

(** ** The lockfile scan *)

(** On a block-start marker with a populated name the buffer is committed
    under its source, and stays as it was: nothing resets it. *)
Lemma scan_line_marker (n : jsstr) (s : option jsstr) (index : obj (list jsstr)) :
  Lock.scan_line ({| Lock.name := Some n; Lock.source := s |}, index)
    (lit "[[package]]")
  = (index' <- push_name index (Lock.property_key s) n ;;
     Ok ({| Lock.name := Some n; Lock.source := s |}, index'))%result.
Proof.
  unfold Lock.scan_line.
  change (trim (lit "[[package]]")) with (lit "[[package]]").
  change (str_eqb (lit "[[package]]") (lit "[[package]]")) with true.
  change (startsWith (lit "[[package]]") Lock.name_prefix) with false.
  change (startsWith (lit "[[package]]") Lock.source_prefix) with false.
  cbn [Lock.name Lock.source].
  destruct (push_name index (Lock.property_key s) n); reflexivity.
Qed.

(** ** The directory walk *)

Section WalkFacts.
Import Walk.

Lemma fstree_induction (P : fstree -> Prop) :
  (forall n, P (File n)) ->
  (forall n, P (Special n)) ->
  (forall n e, P (Directory n (Err e))) ->
  (forall n entries, Forall P entries -> P (Directory n (Ok entries))) ->
  forall t, P t.
Proof.
  intros Hfile Hspecial Herr Hdir. fix IH 1.
  intros [n|n|n [entries|e]];
    [apply Hfile | apply Hspecial | | apply Herr].
  apply Hdir. induction entries as [|t entries IHentries]; constructor;
    [apply IH | exact IHentries].
Qed.

Variable join : list jsstr -> jsstr.
Variables ignoreFn matcherFn : jsstr -> Dirent -> bool.

Lemma visit_entries_agree (entries : list fstree) :
  Forall (fun t => forall dirPath t',
              agree_outside_ignored join ignoreFn dirPath t t' ->
              visit_entry join ignoreFn matcherFn dirPath t
              = visit_entry join ignoreFn matcherFn dirPath t') entries ->
  forall dirPath entries',
    Forall2 (agree_outside_ignored join ignoreFn dirPath) entries entries' ->
    List.map (visit_entry join ignoreFn matcherFn dirPath) entries
    = List.map (visit_entry join ignoreFn matcherFn dirPath) entries'.
Proof.
  induction 1 as [|t entries Ht _ IH]; intros dirPath entries' Hagree;
    inversion Hagree; subst; simpl; [reflexivity|].
  f_equal; auto.
Qed.

Lemma visit_entry_agree (t : fstree) :
  forall dirPath t',
    agree_outside_ignored join ignoreFn dirPath t t' ->
    visit_entry join ignoreFn matcherFn dirPath t
    = visit_entry join ignoreFn matcherFn dirPath t'.
Proof.
  induction t as [n|n|n e|n entries IH] using fstree_induction;
    intros dirPath t' Hagree;
    inversion Hagree as [| ? ? ? ? Hignored | ? ? ? ? Hinside]; subst;
    try reflexivity.
  - simpl. rewrite Hignored. reflexivity.
  - simpl. rewrite Hignored. reflexivity.
  - simpl. destruct (ignoreFn dirPath _); [reflexivity|].
    unfold read_entries.
    rewrite (visit_entries_agree _ IH _ _ Hinside). reflexivity.
Qed.

End WalkFacts.

(** C6. Whatever the predicates, the walk of a tree depends on nothing
    below a directory for which [ignoreFn] answered true: two trees that
    differ only there (other entries, files that [matcherFn] accepts, or a
    directory that cannot even be read) give the same result and the same
    entries visited. *)
Theorem ignored_subtree_never_visited
    (join : list jsstr -> jsstr)
    (ignoreFn matcherFn : jsstr -> Walk.Dirent -> bool)
    (dirPath : jsstr) (entries entries' : list Walk.fstree) :
  Forall2 (Walk.agree_outside_ignored join ignoreFn dirPath) entries entries' ->
  Walk.deepReadDir_traced join ignoreFn matcherFn dirPath (Ok entries)
  = Walk.deepReadDir_traced join ignoreFn matcherFn dirPath (Ok entries').
Proof.
  intros Hagree. unfold Walk.deepReadDir_traced, Walk.read_entries.
  rewrite (visit_entries_agree join ignoreFn matcherFn entries) with (entries' := entries');
    [reflexivity | | exact Hagree].
  apply Forall_forall. intros t _. apply visit_entry_agree.
Qed.

Lemma ignored_subtree_witness :
  Walk.deepReadDir_traced (path_join Examples.world) (ignoreFn (lit "."))
    matcherFn (lit ".") (Ok Examples.tree_with_target)
  = Walk.deepReadDir_traced (path_join Examples.world) (ignoreFn (lit "."))
      matcherFn (lit ".") (Ok Examples.tree_target_unreadable).
Proof.
  apply ignored_subtree_never_visited.
  constructor; [apply Walk.agree_ignored; reflexivity|].
  constructor; [|constructor; [apply Walk.agree_same | constructor]].
  apply Walk.agree_inside.
  constructor; [apply Walk.agree_ignored; reflexivity|].
  constructor; [apply Walk.agree_same | constructor].
Defined.

(** ** Indexes *)

Lemma get_set_own_same {V} (o : obj V) (k : jsstr) (v : V) :
  get_own (set_own o k v) k = Some v.
Proof.
  induction o as [|[k' v'] o IH]; simpl.
  - rewrite str_eqb_refl. reflexivity.
  - destruct (str_eqb k' k) eqn:E; simpl; rewrite E; [reflexivity | exact IH].
Qed.

Lemma get_set_own_other {V} (o : obj V) (k k' : jsstr) (v : V) :
  k' <> k -> get_own (set_own o k v) k' = get_own o k'.
Proof.
  intros Hk. induction o as [|[k0 v0] o IH]; simpl.
  - rewrite (str_eqb_neq _ _ (not_eq_sym Hk)). reflexivity.
  - destruct (str_eqb k0 k) eqn:E; simpl.
    + apply str_eqb_eq in E. subst k0.
      rewrite (str_eqb_neq _ _ (not_eq_sym Hk)). reflexivity.
    + destruct (str_eqb k0 k'); [reflexivity | exact IH].
Qed.

Lemma get_own_names (index : obj (list jsstr)) (k : jsstr) (names : list jsstr)
    (n : jsstr) :
  get_own index k = Some names -> In n names -> In n (indexed_names index).
Proof.
  unfold indexed_names.
  induction index as [|[k' v'] index IH]; simpl; [discriminate|].
  intros Hget Hin. apply in_or_app.
  destruct (str_eqb k' k).
  - injection Hget as ->. left; exact Hin.
  - right; auto.
Qed.

Lemma set_own_names (index : obj (list jsstr)) (k : jsstr) (v : list jsstr)
    (n : jsstr) :
  In n (indexed_names (set_own index k v)) ->
  In n v \/ In n (indexed_names index).
Proof.
  unfold indexed_names.
  induction index as [|[k' v'] index IH]; simpl.
  - rewrite app_nil_r. auto.
  - destruct (str_eqb k' k); simpl; intros H; apply in_app_or in H;
      destruct H as [H|H]; auto using in_or_app.
    destruct (IH H); auto using in_or_app.
Qed.

(** A push adds the pushed name and no other. *)
Lemma push_name_names (index index' : obj (list jsstr)) (key name n : jsstr) :
  push_name index key name = Ok index' ->
  In n (indexed_names index') -> n = name \/ In n (indexed_names index).
Proof.
  unfold push_name. destruct (get_own index key) as [names|] eqn:Hget.
  - intros H; injection H as <-. intros Hin.
    apply set_own_names in Hin. destruct Hin as [Hin|Hin]; [|auto].
    apply in_app_or in Hin. destruct Hin as [Hin|[<-|[]]]; [|auto].
    right. eapply get_own_names; eauto.
  - destruct (inherited key); [discriminate|].
    intros H; injection H as <-. intros Hin.
    apply set_own_names in Hin. destruct Hin as [[<-|[]]|Hin]; auto.
Qed.

(** A push puts the name under the key. *)
Lemma push_name_adds (index index' : obj (list jsstr)) (key name : jsstr) :
  push_name index key name = Ok index' -> indexed_under index' key name.
Proof.
  unfold push_name, indexed_under.
  destruct (get_own index key) as [names|].
  - intros H; injection H as <-. rewrite get_set_own_same.
    eexists; split; [reflexivity|]. apply in_or_app; right; left; reflexivity.
  - destruct (inherited key); [discriminate|].
    intros H; injection H as <-. rewrite get_set_own_same.
    eexists; split; [reflexivity|]. left; reflexivity.
Qed.

(** A push removes nothing. *)
Lemma push_name_keeps (index index' : obj (list jsstr)) (key name k n : jsstr) :
  push_name index key name = Ok index' ->
  indexed_under index k n -> indexed_under index' k n.
Proof.
  unfold push_name, indexed_under. intros Hpush (names & Hget & Hin).
  destruct (list_eq_dec N.eq_dec k key) as [->|Hk].
  - rewrite Hget in Hpush. injection Hpush as <-.
    rewrite get_set_own_same. eexists; split; [reflexivity|].
    apply in_or_app; left; exact Hin.
  - destruct (get_own index key) as [names'|].
    + injection Hpush as <-. rewrite get_set_own_other by assumption. eauto.
    + destruct (inherited key); [discriminate|].
      injection Hpush as <-. rewrite get_set_own_other by assumption. eauto.
Qed.

(** ** The manifest scan *)

Section ManifestFacts.
Import Toml Manifest.

Lemma template_key_ok (git branch : toml) (key : jsstr) :
  template_key git branch = Ok key ->
  key = key_of git branch
  /\ stringifiable git = true /\ stringifiable branch = true.
Proof.
  unfold template_key.
  destruct (stringifiable git); [|discriminate].
  destruct (stringifiable branch); [|discriminate].
  intros H; injection H as <-. auto.
Qed.

(** An entry without a [git] field leaves the index as it is. *)
Lemma index_dependency_skips (index : obj (list jsstr)) (dep : jsstr) (decl : toml) :
  prop decl (lit "git") = None ->
  index_dependency index (dep, decl) = Ok index.
Proof. intros H. unfold index_dependency. rewrite H. reflexivity. Qed.

(** What one entry can add: its own name, when its [git] is truthy. *)
Lemma index_dependency_names (index index' : obj (list jsstr))
    (dep : jsstr) (decl : toml) (n : jsstr) :
  index_dependency index (dep, decl) = Ok index' ->
  In n (indexed_names index') ->
  In n (indexed_names index)
  \/ (n = dep /\ exists git, prop decl (lit "git") = Some git /\ truthy git = true).
Proof.
  unfold index_dependency.
  destruct (prop decl (lit "git")) as [git|] eqn:Hgit.
  - destruct (truthy git) eqn:Ht.
    + destruct (template_key git (branch_of decl)) as [key|]; cbn [rbind];
        [|discriminate].
      intros Hpush Hin. destruct (push_name_names _ _ _ _ _ Hpush Hin) as [->|H];
        [right; eauto | left; exact H].
    + intros H; injection H as <-; auto.
  - intros H; injection H as <-; auto.
Qed.

Lemma index_dependency_keeps (index index' : obj (list jsstr))
    (entry : jsstr * toml) (k n : jsstr) :
  index_dependency index entry = Ok index' ->
  indexed_under index k n -> indexed_under index' k n.
Proof.
  destruct entry as [dep decl]. unfold index_dependency.
  destruct (prop decl (lit "git")) as [git|].
  - destruct (truthy git).
    + destruct (template_key git (branch_of decl)) as [key|]; cbn [rbind];
        [|discriminate].
      apply push_name_keeps.
    + intros H; injection H as <-; auto.
  - intros H; injection H as <-; auto.
Qed.

Lemma index_dependencies_names (entries : list (jsstr * toml)) :
  forall index index' n,
    index_dependencies index entries = Ok index' ->
    In n (indexed_names index') ->
    In n (indexed_names index)
    \/ exists decl git,
         In (n, decl) entries
         /\ prop decl (lit "git") = Some git /\ truthy git = true.
Proof.
  induction entries as [|[dep decl] entries IH]; cbn [index_dependencies];
    intros index index' n.
  - intros H; injection H as <-; auto.
  - destruct (index_dependency index (dep, decl)) as [index1|] eqn:H1;
      cbn [rbind]; [|discriminate].
    intros Hrest Hin.
    destruct (IH _ _ _ Hrest Hin) as [H|(decl' & git & Hi & Hg & Ht)].
    + destruct (index_dependency_names _ _ _ _ _ H1 H) as [H0|[-> (git & Hg & Ht)]];
        [auto | right; exists decl, git; repeat split; auto using in_eq].
    + right; exists decl', git; repeat split; auto using in_cons.
Qed.

Lemma index_dependencies_keeps (entries : list (jsstr * toml)) :
  forall index index' k n,
    index_dependencies index entries = Ok index' ->
    indexed_under index k n -> indexed_under index' k n.
Proof.
  induction entries as [|entry entries IH]; cbn [index_dependencies];
    intros index index' k n.
  - intros H; injection H as <-; auto.
  - destruct (index_dependency index entry) as [index1|] eqn:H1;
      cbn [rbind]; [|discriminate].
    intros Hrest Hu. eapply IH; [exact Hrest|].
    eapply index_dependency_keeps; eauto.
Qed.

Lemma index_dependencies_adds (entries : list (jsstr * toml)) :
  forall index index' dep decl git,
    index_dependencies index entries = Ok index' ->
    In (dep, decl) entries ->
    prop decl (lit "git") = Some git -> truthy git = true ->
    indexed_under index' (key_of git (branch_of decl)) dep.
Proof.
  induction entries as [|entry entries IH]; cbn [index_dependencies];
    intros index index' dep decl git Hrun Hin Hg Ht; [contradiction|].
  destruct (index_dependency index entry) as [index1|] eqn:H1;
    cbn [rbind] in Hrun; [|discriminate].
  destruct Hin as [->|Hin].
  - eapply index_dependencies_keeps; [exact Hrun|].
    unfold index_dependency in H1. rewrite Hg, Ht in H1.
    destruct (template_key git (branch_of decl)) as [key|] eqn:Hkey;
      cbn [rbind] in H1; [|discriminate].
    apply template_key_ok in Hkey. destruct Hkey as [-> _].
    eapply push_name_adds; exact H1.
  - eapply IH; eauto.
Qed.

(** The git and branch values of every declaration a finished loop went
    through could be turned into strings. *)
Lemma index_dependencies_stringifiable (entries : list (jsstr * toml)) :
  forall index index' dep decl git,
    index_dependencies index entries = Ok index' ->
    In (dep, decl) entries ->
    prop decl (lit "git") = Some git -> truthy git = true ->
    stringifiable git = true /\ stringifiable (branch_of decl) = true.
Proof.
  induction entries as [|entry entries IH]; cbn [index_dependencies];
    intros index index' dep decl git Hrun Hin Hg Ht; [contradiction|].
  destruct (index_dependency index entry) as [index1|] eqn:H1;
    cbn [rbind] in Hrun; [|discriminate].
  destruct Hin as [->|Hin]; [|eapply IH; eauto].
  unfold index_dependency in H1. rewrite Hg, Ht in H1.
  destruct (template_key git (branch_of decl)) as [key|] eqn:Hkey;
    cbn [rbind] in H1; [|discriminate].
  apply template_key_ok in Hkey. tauto.
Qed.

Variable parse_file : jsstr -> result toml.

(** A file that the scan gets through was parsed, and what it adds comes
    from its dependency table. *)
Lemma scan_file_inv (index index' : obj (list jsstr)) (file : jsstr) :
  scan_file parse_file index file = Ok index' ->
  exists configToml,
    parse_file file = Ok configToml
    /\ ((exists deps, configDeps configToml = Some deps /\ truthy deps = true
           /\ index_dependencies index (own_entries deps) = Ok index')
        \/ ((configDeps configToml = None
             \/ exists deps, configDeps configToml = Some deps
                             /\ truthy deps = false)
            /\ index' = index)).
Proof.
  unfold scan_file, decoding.
  destruct (parse_file file) as [configToml|]; simpl; [|discriminate].
  intros H. exists configToml. split; [reflexivity|].
  destruct (configDeps configToml) as [deps|].
  - destruct (truthy deps) eqn:Ht.
    + left. exists deps. repeat split; auto.
      destruct (index_dependencies index (own_entries deps));
        [injection H as <-; reflexivity | discriminate].
    + right. injection H as <-. split; [right; eauto | reflexivity].
  - right. injection H as <-. split; [left|]; reflexivity.
Qed.

Lemma scan_files_keeps (files : list jsstr) :
  forall index index' k n,
    scan_files parse_file index files = Ok index' ->
    indexed_under index k n -> indexed_under index' k n.
Proof.
  induction files as [|file files IH]; cbn [scan_files];
    intros index index' k n.
  - intros H; injection H as <-; auto.
  - destruct (scan_file parse_file index file) as [index1|] eqn:H1;
      cbn [rbind]; [|discriminate].
    intros Hrest Hu. eapply IH; [exact Hrest|].
    destruct (scan_file_inv _ _ _ H1)
      as (cfg & _ & [(deps & _ & _ & Hd)|[_ ->]]); [|exact Hu].
    eapply index_dependencies_keeps; eauto.
Qed.

Lemma scan_files_adds (files : list jsstr) :
  forall index index' file configToml deps dep decl git,
    scan_files parse_file index files = Ok index' ->
    In file files ->
    parse_file file = Ok configToml ->
    configDeps configToml = Some deps -> truthy deps = true ->
    In (dep, decl) (own_entries deps) ->
    prop decl (lit "git") = Some git -> truthy git = true ->
    indexed_under index' (key_of git (branch_of decl)) dep.
Proof.
  induction files as [|file0 files IH]; cbn [scan_files];
    intros index index' file cfg deps dep decl git Hrun Hin Hp Hc Hd He Hg Ht;
    [contradiction|].
  destruct (scan_file parse_file index file0) as [index1|] eqn:H1;
    cbn [rbind] in Hrun; [|discriminate].
  destruct Hin as [->|Hin]; [|eapply IH; eauto].
  eapply scan_files_keeps; [exact Hrun|].
  destruct (scan_file_inv _ _ _ H1) as (cfg' & Hp' & Hcases).
  rewrite Hp in Hp'. injection Hp' as <-.
  destruct Hcases as [(deps' & Hc' & _ & Hrun')|[[Hnone|(deps' & Hc' & Hf)] _]].
  - rewrite Hc in Hc'. injection Hc' as <-.
    eapply index_dependencies_adds; eauto.
  - congruence.
  - rewrite Hc in Hc'. injection Hc' as <-. congruence.
Qed.

Lemma scan_files_stringifiable (files : list jsstr) :
  forall index index' file configToml deps dep decl git,
    scan_files parse_file index files = Ok index' ->
    In file files ->
    parse_file file = Ok configToml ->
    configDeps configToml = Some deps -> truthy deps = true ->
    In (dep, decl) (own_entries deps) ->
    prop decl (lit "git") = Some git -> truthy git = true ->
    stringifiable git = true /\ stringifiable (branch_of decl) = true.
Proof.
  induction files as [|file0 files IH]; cbn [scan_files];
    intros index index' file cfg deps dep decl git Hrun Hin Hp Hc Hd He Hg Ht;
    [contradiction|].
  destruct (scan_file parse_file index file0) as [index1|] eqn:H1;
    cbn [rbind] in Hrun; [|discriminate].
  destruct Hin as [->|Hin]; [|eapply IH; eauto].
  destruct (scan_file_inv _ _ _ H1) as (cfg' & Hp' & Hcases).
  rewrite Hp in Hp'. injection Hp' as <-.
  destruct Hcases as [(deps' & Hc' & _ & Hrun')|[[Hnone|(deps' & Hc' & Hf)] _]].
  - rewrite Hc in Hc'. injection Hc' as <-.
    eapply index_dependencies_stringifiable; eauto.
  - congruence.
  - rewrite Hc in Hc'. injection Hc' as <-. congruence.
Qed.

Lemma scan_files_names (files : list jsstr) :
  forall index index' n,
    scan_files parse_file index files = Ok index' ->
    In n (indexed_names index') ->
    In n (indexed_names index)
    \/ exists file configToml deps decl git,
         In file files /\ parse_file file = Ok configToml
         /\ configDeps configToml = Some deps
         /\ In (n, decl) (own_entries deps)
         /\ prop decl (lit "git") = Some git /\ truthy git = true.
Proof.
  induction files as [|file files IH]; cbn [scan_files];
    intros index index' n.
  - intros H; injection H as <-; auto.
  - destruct (scan_file parse_file index file) as [index1|] eqn:H1;
      cbn [rbind]; [|discriminate].
    intros Hrest Hin.
    destruct (IH _ _ _ Hrest Hin)
      as [H|(f & cfg & deps & decl & git & Hf & Hp & Hc & He & Hg & Ht)].
    + destruct (scan_file_inv _ _ _ H1)
        as (cfg & Hp & [(deps & Hc & _ & Hd)|[_ ->]]); [|auto].
      destruct (index_dependencies_names _ _ _ _ Hd H)
        as [H0|(decl & git & He & Hg & Ht)]; [auto|].
      right. exists file, cfg, deps, decl, git.
      repeat split; auto using in_eq.
    + right. exists f, cfg, deps, decl, git.
      repeat split; auto using in_cons.
Qed.

End ManifestFacts.

(** C7. A git dependency declaration without a [branch] field is indexed
    under the key made of its git URL, [#] and [master]: the loop pushes
    its name under that key, and the index of a finished scan holds the
    name there. *)
Theorem omitted_branch_indexed_under_master
    (parse_file : jsstr -> result Toml.toml) (files : list jsstr)
    (index : obj (list jsstr)) (file : jsstr) (configToml deps : Toml.toml)
    (dep : jsstr) (decl git : Toml.toml) :
  Manifest.dependencies parse_file files = Ok index ->
  In file files ->
  parse_file file = Ok configToml ->
  Manifest.configDeps configToml = Some deps ->
  Toml.truthy deps = true ->
  In (dep, decl) (Toml.own_entries deps) ->
  Toml.prop decl (lit "git") = Some git ->
  Toml.truthy git = true ->
  Toml.prop decl (lit "branch") = None ->
  (forall dependencies,
      Manifest.index_dependency dependencies (dep, decl)
      = push_name dependencies (Toml.to_string git ++ lit "#master") dep)
  /\ indexed_under index (Toml.to_string git ++ lit "#master") dep.
Proof.
  intros Hrun Hfile Hparse Hdeps Htd Hentry Hgit Htg Hbranch.
  assert (Hkey : Manifest.key_of git (Manifest.branch_of decl)
                 = Toml.to_string git ++ lit "#master").
  { unfold Manifest.key_of, Manifest.branch_of. rewrite Hbranch. reflexivity. }
  split.
  - intros dependencies. unfold Manifest.index_dependency, Manifest.template_key.
    destruct (scan_files_stringifiable parse_file files [] index file
                configToml deps dep decl git Hrun Hfile Hparse Hdeps Htd
                Hentry Hgit Htg) as [Hsg Hsb].
    rewrite Hgit, Htg, Hsg, Hsb, Hkey. reflexivity.
  - rewrite <- Hkey.
    exact (scan_files_adds parse_file files [] index file configToml deps
             dep decl git Hrun Hfile Hparse Hdeps Htd Hentry Hgit Htg).
Qed.

Lemma omitted_branch_witness :
  (forall dependencies,
      Manifest.index_dependency dependencies
        (lit "sp-core",
         Toml.TTable
           [(lit "git", Toml.TString (lit "https://github.com/paritytech/substrate"))])
      = push_name dependencies
          (lit "https://github.com/paritytech/substrate" ++ lit "#master")
          (lit "sp-core"))
  /\ indexed_under Examples.manifest_index
       (lit "https://github.com/paritytech/substrate" ++ lit "#master")
       (lit "sp-core").
Proof.
  apply (omitted_branch_indexed_under_master Examples.parse_manifest
           [lit "Cargo.toml"] Examples.manifest_index (lit "Cargo.toml")
           Examples.manifest
           (Toml.TTable
              [(lit "serde", Toml.TString (lit "1.0"));
               (lit "tokio", Toml.TTable [(lit "version", Toml.TString (lit "1"))]);
               (lit "sp-core",
                Toml.TTable
                  [(lit "git",
                    Toml.TString (lit "https://github.com/paritytech/substrate"))]);
               (lit "sp-io",
                Toml.TTable
                  [(lit "git",
                    Toml.TString (lit "https://github.com/paritytech/substrate"));
                   (lit "branch", Toml.TString (lit "dev"))])])
           (lit "sp-core")
           (Toml.TTable
              [(lit "git", Toml.TString (lit "https://github.com/paritytech/substrate"))])
           (Toml.TString (lit "https://github.com/paritytech/substrate")));
    try reflexivity.
  - left; reflexivity.
  - right; right; left; reflexivity.
Defined.

(** C8. A name all of whose entries in the dependency tables of the
    manifests lack a [git] field is in no name sequence of the index: such
    entries are passed over and add nothing. *)
Theorem entry_without_git_never_indexed
    (parse_file : jsstr -> result Toml.toml) (files : list jsstr)
    (index : obj (list jsstr)) (n : jsstr) :
  Manifest.dependencies parse_file files = Ok index ->
  (forall file configToml deps decl,
      In file files ->
      parse_file file = Ok configToml ->
      Manifest.configDeps configToml = Some deps ->
      In (n, decl) (Toml.own_entries deps) ->
      Toml.prop decl (lit "git") = None) ->
  ~ In n (indexed_names index).
Proof.
  intros Hrun Hnogit Hin.
  destruct (scan_files_names parse_file files [] index n Hrun Hin)
    as [[]|(file & cfg & deps & decl & git & Hf & Hp & Hc & He & Hg & _)].
  rewrite (Hnogit file cfg deps decl Hf Hp Hc He) in Hg. discriminate.
Qed.

Lemma entry_without_git_witness :
  ~ In (lit "tokio") (indexed_names Examples.manifest_index).
Proof.
  apply (entry_without_git_never_indexed Examples.parse_manifest
           [lit "Cargo.toml"] Examples.manifest_index (lit "tokio")).
  - reflexivity.
  - intros file configToml deps decl [<-|[]] Hparse Hdeps Hentry.
    vm_compute in Hparse. injection Hparse as <-.
    vm_compute in Hdeps. injection Hdeps as <-.
    vm_compute in Hentry.
    destruct Hentry as [He|[He|[He|[He|[]]]]];
      try discriminate He; injection He as <-; reflexivity.
Defined.

(** ** The lockfile scan on every well-formed lockfile *)

Section LockFacts.
Import Lock LockShape.

Lemma startsWith_app (p s : jsstr) : startsWith (p ++ s) p = true.
Proof.
  induction p as [|c p IH]; simpl; [destruct s; reflexivity|].
  rewrite N.eqb_refl. exact IH.
Qed.

Lemma trimEnd_keeps (s : jsstr) (d : N) :
  is_white_space d = false -> trimEnd (s ++ [d]) = s ++ [d].
Proof.
  intros Hd. unfold trimEnd. rewrite rev_unit. simpl. rewrite Hd.
  change (d :: rev s) with ([d] ++ rev s).
  rewrite rev_app_distr, rev_involutive. reflexivity.
Qed.

(** A line from a non-blank unit to a closing quote is its own trim. *)
Lemma trim_quoted (c : N) (p v : jsstr) :
  is_white_space c = false ->
  trim ((c :: p) ++ v ++ [QUOTE]) = (c :: p) ++ v ++ [QUOTE].
Proof.
  intros Hc. unfold trim. simpl. rewrite Hc.
  change (c :: p ++ v ++ [QUOTE]) with ((c :: p) ++ v ++ [QUOTE]).
  rewrite app_assoc. apply trimEnd_keeps. reflexivity.
Qed.

Lemma rmatch_rlit (l : jsstr) (k : captures -> jsstr -> option captures)
    (cs : captures) (s : jsstr) :
  rmatch (rlit l) k cs (l ++ s) = k cs s.
Proof.
  induction l as [|c l IH]; simpl; [reflexivity|].
  rewrite N.eqb_refl. exact IH.
Qed.

(** A greedy repetition takes the whole run when what follows the run
    lets the rest of the pattern match. *)
Lemma plus_greedy_run (p : N -> bool) (k : jsstr -> option captures)
    (c : N) (run rest : jsstr) (r : captures) :
  forallb p (c :: run) = true ->
  match rest with
  | d :: _ => p d = false
  | [] => True
  end ->
  k rest = Some r ->
  plus_greedy p k ((c :: run) ++ rest) = Some r.
Proof.
  intros Hrun Hrest Hk. revert c Hrun.
  induction run as [|c' run IH]; intros c Hrun;
    cbn [forallb] in Hrun; apply andb_true_iff in Hrun;
    destruct Hrun as [Hc Hrun].
  - simpl. rewrite Hc. destruct rest as [|d rest]; simpl; [exact Hk|].
    rewrite Hrest. exact Hk.
  - change (plus_greedy p k ((c :: c' :: run) ++ rest))
      with (if p c
            then match plus_greedy p k ((c' :: run) ++ rest) with
                 | Some cs => Some cs
                 | None => k ((c' :: run) ++ rest)
                 end
            else None).
    rewrite Hc, (IH c' Hrun). reflexivity.
Qed.

Lemma firstn_consumed (a b : jsstr) :
  firstn (length (a ++ b) - length b) (a ++ b) = a.
Proof.
  rewrite length_app, Nat.add_sub, firstn_app, Nat.sub_diag, firstn_all.
  simpl. apply app_nil_r.
Qed.

Lemma not_quote_run (v : jsstr) :
  ~ In QUOTE v -> forallb (not_char [QUOTE]) v = true.
Proof.
  induction v as [|c v IH]; simpl; intros H; [reflexivity|].
  rewrite IH by tauto. unfold not_char. simpl.
  destruct (N.eqb_spec c QUOTE) as [->|_]; [exfalso; auto | reflexivity].
Qed.

(** The pattern of a quoted field on the line of that field: the first
    group is the value between the quotes. *)
Lemma match1_quoted (field v : jsstr) :
  value v ->
  match1 (quoted_field field) ((field ++ lit " = " ++ [QUOTE]) ++ v ++ [QUOTE])
  = Ok v.
Proof.
  intros (Hne & Hq & _). destruct v as [|c v]; [contradiction|].
  unfold match1.
  assert (Hexec :
    rmatch (quoted_field field) (fun cs _ => Some cs) []
      ((field ++ lit " = " ++ [QUOTE]) ++ (c :: v) ++ [QUOTE])
    = Some [(1, c :: v)]).
  { unfold quoted_field. cbn [rseq rmatch]. rewrite rmatch_rlit.
    apply plus_greedy_run.
    - apply not_quote_run; exact Hq.
    - reflexivity.
    - cbn [rlit fold_right rmatch]. rewrite N.eqb_refl.
      rewrite firstn_consumed. reflexivity. }
  destruct ((field ++ lit " = " ++ [QUOTE]) ++ (c :: v) ++ [QUOTE]);
    cbn [Regex.exec]; rewrite Hexec; reflexivity.
Qed.

Lemma scan_line_first_marker (s : option jsstr) (index : obj (list jsstr)) :
  scan_line ({| name := None; source := s |}, index) marker
  = Ok ({| name := None; source := s |}, index).
Proof. reflexivity. Qed.

Lemma scan_line_blank (st : scan_state) : scan_line st [] = Ok st.
Proof. destruct st as [[[n|] s] index]; reflexivity. Qed.

Lemma scan_line_name (buffer : CargoLockPackage) (index : obj (list jsstr))
    (n : jsstr) :
  value n ->
  scan_line (buffer, index) (name_line n)
  = Ok ({| name := Some n; source := source buffer |}, index).
Proof.
  intros Hn. unfold scan_line.
  assert (Htrim : trim (name_line n) = name_line n)
    by (apply (trim_quoted 110%N (tl name_prefix) n); reflexivity).
  rewrite Htrim.
  assert (Hmarker : str_eqb (name_line n) (lit "[[package]]") = false)
    by reflexivity.
  assert (Hsource : startsWith (name_line n) source_prefix = false)
    by reflexivity.
  rewrite Hmarker, Hsource.
  unfold name_line at 1. rewrite startsWith_app.
  rewrite (match1_quoted (lit "name") n Hn : match1 _ (name_line n) = Ok n).
  destruct buffer as [[n0|] s0]; reflexivity.
Qed.

Lemma scan_line_source (buffer : CargoLockPackage) (index : obj (list jsstr))
    (s : jsstr) :
  value s ->
  scan_line (buffer, index) (source_line s)
  = Ok ({| name := name buffer; source := Some s |}, index).
Proof.
  intros Hs. unfold scan_line.
  assert (Htrim : trim (source_line s) = source_line s)
    by (apply (trim_quoted 115%N (tl source_prefix) s); reflexivity).
  rewrite Htrim.
  assert (Hmarker : str_eqb (source_line s) (lit "[[package]]") = false)
    by reflexivity.
  assert (Hname : startsWith (source_line s) name_prefix = false)
    by reflexivity.
  rewrite Hmarker, Hname.
  unfold source_line at 1. rewrite startsWith_app.
  rewrite (match1_quoted (lit "source") s Hs : match1 _ (source_line s) = Ok s).
  destruct buffer as [[n0|] s0]; reflexivity.
Qed.

(** The lines of one block: the marker commits what the buffer held, the
    name and source lines fill the buffer, and a block without a source
    line leaves the source of the block before it in the buffer. *)
Lemma scan_block (buffer : CargoLockPackage) (index : obj (list jsstr))
    (b : jsstr * option jsstr) (rest : list jsstr) :
  well_formed b ->
  scan_lines (buffer, index) (block_lines b ++ rest)
  = (index' <- commit buffer index ;;
     scan_lines (filled buffer b, index') rest)%result.
Proof.
  destruct b as [n s]. intros [Hn Hs]. cbn [fst snd] in Hn, Hs.
  unfold block_lines, filled, commit. cbn [fst snd app scan_lines].
  assert (Hmarker :
    scan_line (buffer, index) marker
    = (index' <- match name buffer with
                 | Some n0 => push_name index (property_key (source buffer)) n0
                 | None => Ok index
                 end ;; Ok (buffer, index'))%result).
  { destruct buffer as [[n0|] s0]; [apply scan_line_marker | reflexivity]. }
  rewrite Hmarker.
  destruct (match name buffer with
            | Some n0 => push_name index (property_key (source buffer)) n0
            | None => Ok index
            end) as [index'|e]; cbn [rbind]; [|reflexivity].
  rewrite (scan_line_name _ _ _ Hn). cbn [rbind].
  destruct s as [s|]; cbn [app scan_lines].
  - destruct Hs as [Hs _].
    rewrite (scan_line_source _ _ _ Hs). cbn [rbind name source].
    rewrite scan_line_blank. reflexivity.
  - rewrite scan_line_blank. reflexivity.
Qed.

Lemma set_own_count_new (index : obj (list jsstr)) (k : jsstr) (v : list jsstr) :
  get_own index k = None ->
  length (indexed_names (set_own index k v))
  = length (indexed_names index) + length v.
Proof.
  unfold indexed_names.
  induction index as [|[k' v'] index IH]; simpl; intros Hget.
  - rewrite app_nil_r. reflexivity.
  - destruct (str_eqb k' k); [discriminate|].
    simpl. rewrite !length_app, IH by assumption. lia.
Qed.

Lemma set_own_count_push (index : obj (list jsstr)) (k : jsstr)
    (names : list jsstr) (n : jsstr) :
  get_own index k = Some names ->
  length (indexed_names (set_own index k (names ++ [n])))
  = S (length (indexed_names index)).
Proof.
  unfold indexed_names.
  induction index as [|[k' v'] index IH]; simpl; intros Hget; [discriminate|].
  destruct (str_eqb k' k).
  - injection Hget as ->. simpl. rewrite !length_app. simpl. lia.
  - simpl. rewrite !length_app, IH by assumption. lia.
Qed.

(** A push adds one name. *)
Lemma push_name_count (index index' : obj (list jsstr)) (key n : jsstr) :
  push_name index key n = Ok index' ->
  length (indexed_names index') = S (length (indexed_names index)).
Proof.
  unfold push_name. destruct (get_own index key) as [names|] eqn:Hget.
  - intros H; injection H as <-. apply set_own_count_push; exact Hget.
  - destruct (inherited key); [discriminate|].
    intros H; injection H as <-.
    rewrite set_own_count_new by assumption. simpl. lia.
Qed.

(** A push fails only on a name that objects inherit. *)
Lemma push_name_succeeds (index : obj (list jsstr)) (key n : jsstr) :
  inherited key = false -> exists index', push_name index key n = Ok index'.
Proof.
  intros Hkey. unfold push_name. rewrite Hkey.
  destruct (get_own index key); eauto.
Qed.



(** Every block but the last one is committed: a scan of blocks that
    starts with [buffer] adds one name for the buffer, if it holds one,
    and one for each block that another block follows. *)
Lemma scan_blocks_count (blocks : list (jsstr * option jsstr)) :
  forall buffer index,
    Forall well_formed blocks ->
    inherited (property_key (source buffer)) = false ->
    exists st,
      scan_lines (buffer, index) (lockfile_lines blocks) = Ok st
      /\ length (indexed_names (snd st))
         = length (indexed_names index)
           + match blocks with
             | [] => 0
             | _ :: following =>
                 (match name buffer with Some _ => 1 | None => 0 end)
                 + length following
             end.
Proof.
  induction blocks as [|b blocks IH]; intros buffer index Hwf Hkey.
  - exists (buffer, index). split; [reflexivity | simpl; lia].
  - inversion Hwf as [|? ? Hb Hblocks]; subst.
    cbn [lockfile_lines flat_map]. rewrite (scan_block _ _ _ _ Hb).
    assert (Hcommit : exists index',
               commit buffer index = Ok index'
               /\ length (indexed_names index')
                  = length (indexed_names index)
                    + match name buffer with Some _ => 1 | None => 0 end).
    { unfold commit. destruct (name buffer) as [n0|].
      - destruct (push_name_succeeds index _ n0 Hkey) as [index' Hpush].
        exists index'. split; [exact Hpush|].
        rewrite (push_name_count _ _ _ _ Hpush). lia.
      - exists index. split; [reflexivity | lia]. }
    destruct Hcommit as (index' & -> & Hcount). cbn [rbind].
    destruct (IH (filled buffer b) index' Hblocks) as (st & Hst & Hlen).
    { unfold filled. cbn [source]. destruct b as [n [s|]]; cbn [snd].
      - destruct Hb as [_ [_ Hs]]. exact Hs.
      - exact Hkey. }
    exists st. split; [exact Hst|]. rewrite Hlen, Hcount.
    unfold filled. cbn [name]. destruct blocks; simpl; lia.
Qed.

Lemma split_no_separator (sep : N) (l : jsstr) :
  ~ In sep l -> split sep l = [l].
Proof.
  induction l as [|c l IH]; simpl; intros H; [reflexivity|].
  destruct (N.eqb_spec c sep) as [->|_]; [exfalso; auto|].
  rewrite IH by auto. reflexivity.
Qed.

(** [split] undoes [join] on pieces that are free of the separator. *)
Lemma split_join (sep : N) (l : jsstr) (lines : list jsstr) :
  Forall (fun l => ~ In sep l) (l :: lines) ->
  split sep (Js.join [sep] (l :: lines)) = l :: lines.
Proof.
  revert l. induction lines as [|l' lines IH]; intros l Hfree;
    inversion Hfree as [|? ? Hl Hlines]; subst.
  - apply split_no_separator; exact Hl.
  - change (Js.join [sep] (l :: l' :: lines))
      with (l ++ sep :: Js.join [sep] (l' :: lines)).
    rewrite split_first by exact Hl. rewrite IH by exact Hlines. reflexivity.
Qed.

Lemma block_lines_free (b : jsstr * option jsstr) :
  well_formed b -> Forall (fun l => ~ In LF l) (block_lines b).
Proof.
  assert (Hline : forall prefix v,
             ~ In LF prefix -> value v -> ~ In LF (prefix ++ v ++ [QUOTE])).
  { intros prefix v Hp (_ & _ & Hv) Hin.
    apply in_app_or in Hin. destruct Hin as [Hin|Hin]; [auto|].
    apply in_app_or in Hin. destruct Hin as [Hin|[Hin|[]]]; [auto|].
    discriminate Hin. }
  assert (Hprefix : forall prefix : jsstr,
             existsb (N.eqb LF) prefix = false -> ~ In LF prefix).
  { intros prefix Hex Hin.
    assert (existsb (N.eqb LF) prefix = true)
      by (apply existsb_exists; exists LF; split;
          [exact Hin | apply N.eqb_refl]).
    congruence. }
  destruct b as [n s]. intros [Hn Hs]. cbn [fst snd] in Hn, Hs.
  unfold block_lines. cbn [fst snd].
  constructor; [apply Hprefix; reflexivity|].
  constructor; [apply Hline; [apply Hprefix; reflexivity | exact Hn]|].
  destruct s as [s|].
  - destruct Hs as [Hs _].
    constructor; [apply Hline; [apply Hprefix; reflexivity | exact Hs]|].
    constructor; [intros []|constructor].
  - constructor; [intros []|constructor].
Qed.

Lemma lockfile_lines_free (blocks : list (jsstr * option jsstr)) :
  Forall well_formed blocks ->
  Forall (fun l => ~ In LF l) (lockfile_lines blocks).
Proof.
  induction 1 as [|b blocks Hb _ IH]; cbn [lockfile_lines flat_map];
    [constructor|].
  apply Forall_app. split; [apply block_lines_free; exact Hb | exact IH].
Qed.

(** The lines the scan splits the text of a lockfile into. *)
Lemma split_lockfile_text (b : jsstr * option jsstr)
    (blocks : list (jsstr * option jsstr)) :
  Forall well_formed (b :: blocks) ->
  split LF (lockfile_text (b :: blocks)) = lockfile_lines (b :: blocks).
Proof.
  intros Hwf. pose proof (lockfile_lines_free _ Hwf) as Hfree.
  unfold lockfile_text. revert Hfree.
  cbn [lockfile_lines flat_map]. unfold block_lines at 1 3. cbn [app].
  apply split_join.
Qed.

(** X4. The scan of a well-formed lockfile of N blocks succeeds and ends
    with N - 1 names in the index: the last block stays in the buffer. *)
Lemma lock_scan_holds_all_but_last (blocks : list (jsstr * option jsstr)) :
  Forall well_formed blocks ->
  exists index,
    cargoLockPackages (lockfile_text blocks) = Ok index
    /\ length (indexed_names index) = length blocks - 1.
Proof.
  intros Hwf. destruct blocks as [|b blocks].
  - exists []. split; reflexivity.
  - unfold cargoLockPackages. rewrite (split_lockfile_text _ _ Hwf).
    destruct (scan_blocks_count (b :: blocks) (fst initial) (snd initial) Hwf
                eq_refl) as (st & Hst & Hlen).
    change (fst initial, snd initial) with initial in Hst.
    rewrite Hst. cbn [rbind]. exists (snd st). split; [reflexivity|].
    rewrite Hlen. simpl. lia.
Qed.





End LockFacts.

(** C1, the program at a lockfile of N blocks. The loop commits a block
    only when it meets the next marker and nothing commits the buffer
    after the last line: of two blocks the index holds the first package
    only, and of one block it holds none. *)
Theorem lock_scan_drops_last_block :
  Lock.cargoLockPackages Examples.lock_two
  = Ok [(Examples.registry, [lit "serde"])]
  /\ Lock.cargoLockPackages Examples.lock_one = Ok [].
Proof. split; vm_compute; reflexivity. Qed.

(** C3, the program at a lockfile whose second block has no source line.
    The marker commits the buffer and leaves it as it was, so the package
    without a source is indexed under the source of the block before it,
    and the index has no "null" key. *)
Theorem lock_scan_carries_source_over :
  Lock.cargoLockPackages Examples.lock_local
  = Ok [(Examples.registry, [lit "serde"; lit "my-crate"])]
  /\ get_own [(Examples.registry, [lit "serde"; lit "my-crate"])] (lit "null")
     = None.
Proof. split; vm_compute; reflexivity. Qed.

(** ** Runs of the flows *)

(** Two manifests that name the same repository and branch give one key,
    with the names in the order the files were found. *)
Example deps_two_crates :
  cmdDependencies Examples.world_two_crates (lit "/repo") false true
  = ([LogArgs (lit "/repo") false true;
      LogValue (JStr (lit "git@github.com:nbaztec/subsgrade.git"));
      LogText (lit "Cargo.toml");
      LogJson [(lit "https://example.com/foo#dev", [lit "foo"; lit "bar"])]],
     Ok tt).
Proof. vm_compute. reflexivity. Qed.

(** The audit of the example checkout asks for [c3] only. *)
Example commits_need_c3 :
  Commits.cmdCommits Examples.world (lit ".") (lit "stable") (lit "stable")
  = ([LogValue (JStr (lit "git@github.com:nbaztec/subsgrade.git"));
      LogText (lit "Need the following commits on branch main:" ++ [LF]
               ++ lit "c3 https://github.com/nbaztec/subsgrade/commit/c3 third change ")],
     Ok tt).
Proof. vm_compute. reflexivity. Qed.

(** ** Errors end the loops *)




(** * Further properties of the program *)

(** ** What the directory walk returns *)

Section WalkResult.
Import Walk.

Variable join : list jsstr -> jsstr.
Variables ignoreFn matcherFn : jsstr -> Dirent -> bool.

Lemma found_app (a b : list visit) :
  found join ignoreFn matcherFn (a ++ b)
  = found join ignoreFn matcherFn a ++ found join ignoreFn matcherFn b.
Proof. unfold found. rewrite filter_app, map_app, filter_app. reflexivity. Qed.

Lemma filter_idempotent {A} (f : A -> bool) (l : list A) :
  filter f (filter f l) = filter f l.
Proof.
  induction l as [|x l IH]; simpl; [reflexivity|].
  destruct (f x) eqn:E; simpl; [rewrite E, IH|]; auto.
Qed.

Lemma found_nonempty (visits : list visit) :
  filter nonempty (found join ignoreFn matcherFn visits)
  = found join ignoreFn matcherFn visits.
Proof. unfold found. apply filter_idempotent. Qed.

Lemma dirent_of_directory (t : fstree) :
  isDirectory (dirent_of t) = match t with Directory _ _ => true | _ => false end.
Proof. destruct t; reflexivity. Qed.

(** The entries of a listing, given the fact for each of them. *)
Lemma read_entries_found (entries : list fstree) :
  Forall (fun t => forall dirPath seen item,
              visit_entry join ignoreFn matcherFn dirPath t = (seen, Ok item) ->
              flat_filter [item] = found join ignoreFn matcherFn seen) entries ->
  forall dirPath seen files,
    read_entries (visit_entry join ignoreFn matcherFn dirPath) (Ok entries)
    = (seen, Ok files) ->
    files = found join ignoreFn matcherFn seen.
Proof.
  unfold read_entries.
  induction 1 as [|t entries Ht _ IH]; intros dirPath seen files Hrun.
  - injection Hrun as <- <-. reflexivity.
  - cbn [List.map concat all] in Hrun.
    destruct (visit_entry join ignoreFn matcherFn dirPath t) as [seen1 [item|e]]
      eqn:Hvisit; cbn [fst snd] in Hrun; [|discriminate].
    destruct (all (List.map snd
                (List.map (visit_entry join ignoreFn matcherFn dirPath) entries)))
      as [items|e] eqn:Hall; cbn [rbind] in Hrun; [|discriminate].
    injection Hrun as <- <-.
    pose proof (IH dirPath
                  (concat (List.map fst
                     (List.map (visit_entry join ignoreFn matcherFn dirPath)
                        entries)))
                  (flat_filter items)) as IH'.
    rewrite Hall in IH'. cbn [rbind] in IH'. specialize (IH' eq_refl).
    rewrite found_app, <- (Ht _ _ _ Hvisit), <- IH'.
    cbn [flat_filter flat_map]. rewrite app_nil_r. reflexivity.
Qed.

Lemma visit_entry_found (t : fstree) :
  forall dirPath seen item,
    visit_entry join ignoreFn matcherFn dirPath t = (seen, Ok item) ->
    flat_filter [item] = found join ignoreFn matcherFn seen.
Proof.
  induction t as [n|n|n e|n entries IH] using fstree_induction;
    intros dirPath seen item; cbn [visit_entry dirent_of d_name].
  - destruct (ignoreFn dirPath _) eqn:Hi.
    + intros H; injection H as <- <-.
      unfold found, accepted. cbn [filter fst snd]. rewrite Hi. reflexivity.
    + destruct (matcherFn dirPath _) eqn:Hm; intros H; injection H as <- <-;
        unfold found, accepted; cbn [filter fst snd]; rewrite Hi, Hm;
        cbn; try rewrite app_nil_r; reflexivity.
  - destruct (ignoreFn dirPath _) eqn:Hi.
    + intros H; injection H as <- <-.
      unfold found, accepted. cbn [filter fst snd]. rewrite Hi. reflexivity.
    + destruct (matcherFn dirPath _) eqn:Hm; intros H; injection H as <- <-;
        unfold found, accepted; cbn [filter fst snd]; rewrite Hi, Hm;
        cbn; try rewrite app_nil_r; reflexivity.
  - destruct (ignoreFn dirPath _) eqn:Hi.
    + intros H; injection H as <- <-.
      unfold found, accepted. cbn [filter fst snd]. rewrite Hi. reflexivity.
    + cbn. discriminate.
  - destruct (ignoreFn dirPath _) eqn:Hi.
    + intros H; injection H as <- <-.
      unfold found, accepted. cbn [filter fst snd]. rewrite Hi. reflexivity.
    + destruct (read_entries _ (Ok entries)) as [seen1 [files|e]] eqn:Hread;
        cbn [rbind]; [|discriminate].
      intros H; injection H as <- <-.
      pose proof (read_entries_found entries IH _ _ _ Hread) as ->.
      change ((dirPath, {| d_name := n; d_type := IsDirectory |}) :: seen1)
        with ([(dirPath, {| d_name := n; d_type := IsDirectory |})] ++ seen1).
      rewrite found_app. cbn [flat_filter flat_map]. rewrite app_nil_r.
      rewrite found_nonempty.
      unfold found at 2, accepted. cbn [filter fst snd isDirectory d_type].
      rewrite Hi. reflexivity.
Qed.

(** The walk of a listing, by the entries it visited. *)
Lemma deepReadDir_traced_found (dirPath : jsstr) (content : result (list fstree))
    (seen : list visit) (files : list jsstr) :
  deepReadDir_traced join ignoreFn matcherFn dirPath content = (seen, Ok files) ->
  files = found join ignoreFn matcherFn seen.
Proof.
  unfold deepReadDir_traced. destruct content as [entries|e];
    [|cbn; discriminate].
  apply read_entries_found. apply Forall_forall. intros t _.
  apply visit_entry_found.
Qed.

Lemma readable_entries (entries : list fstree) :
  Forall (fun t => forall dirPath,
              (exists item,
                  snd (visit_entry join ignoreFn matcherFn dirPath t) = Ok item)
              <-> readable join ignoreFn dirPath t = true) entries ->
  forall dirPath,
    (exists files,
        snd (read_entries (visit_entry join ignoreFn matcherFn dirPath)
               (Ok entries)) = Ok files)
    <-> forallb (readable join ignoreFn dirPath) entries = true.
Proof.
  unfold read_entries. cbn [snd].
  induction 1 as [|t entries Ht _ IH]; intros dirPath.
  - cbn. split; eauto.
  - cbn [List.map all forallb]. rewrite andb_true_iff.
    rewrite <- (Ht dirPath), <- (IH dirPath).
    destruct (snd (visit_entry join ignoreFn matcherFn dirPath t))
      as [item|e]; cbn [rbind].
    + destruct (all (List.map snd
                  (List.map (visit_entry join ignoreFn matcherFn dirPath) entries)))
        as [items|e]; cbn [rbind].
      * split; eauto.
      * split; [intros [? H]; discriminate | intros [_ [? H]]; discriminate].
    + split; [intros [? H]; discriminate | intros [[? H] _]; discriminate].
Qed.

Lemma readable_entry (t : fstree) :
  forall dirPath,
    (exists item, snd (visit_entry join ignoreFn matcherFn dirPath t) = Ok item)
    <-> readable join ignoreFn dirPath t = true.
Proof.
  induction t as [n|n|n e|n entries IH] using fstree_induction;
    intros dirPath; cbn [visit_entry readable dirent_of d_name].
  - destruct (ignoreFn dirPath _); cbn; [split; eauto|].
    destruct (matcherFn dirPath _); split; eauto.
  - destruct (ignoreFn dirPath _); cbn; [split; eauto|].
    destruct (matcherFn dirPath _); split; eauto.
  - destruct (ignoreFn dirPath _); cbn; [split; eauto|].
    split; [intros [? H]; discriminate | discriminate].
  - destruct (ignoreFn dirPath _); [cbn; split; eauto|].
    rewrite <- (readable_entries entries IH).
    destruct (read_entries _ (Ok entries)) as [seen [files|e]]; cbn [snd rbind].
    + split; eauto.
    + split; intros [? H]; discriminate.
Qed.

End WalkResult.

(** X1. When the walk of a directory succeeds, its result is exactly the
    joined paths of the entries it visited that are not ignored, are not
    directories and are accepted by [matcherFn], in the order of the
    visits (depth first, a listing in its own order), with empty paths
    left out. *)
Theorem walk_returns_accepted_entries
    (join : list jsstr -> jsstr)
    (ignoreFn matcherFn : jsstr -> Walk.Dirent -> bool)
    (dirPath : jsstr) (content : result (list Walk.fstree))
    (seen : list Walk.visit) (files : list jsstr) :
  Walk.deepReadDir_traced join ignoreFn matcherFn dirPath content
  = (seen, Ok files) ->
  files = Walk.found join ignoreFn matcherFn seen.
Proof. apply deepReadDir_traced_found. Qed.

Lemma walk_returns_accepted_witness :
  [lit "./crates/Cargo.toml"; lit "./Cargo.toml"]
  = Walk.found (path_join Examples.world) (ignoreFn (lit ".")) matcherFn
      (fst (Walk.deepReadDir_traced (path_join Examples.world)
              (ignoreFn (lit ".")) matcherFn (lit ".")
              (Ok Examples.tree_with_target))).
Proof.
  apply (walk_returns_accepted_entries (path_join Examples.world)
           (ignoreFn (lit ".")) matcherFn (lit ".")
           (Ok Examples.tree_with_target)).
  reflexivity.
Defined.

(** X2. The walk succeeds exactly when every directory it enters can be
    read: one unreadable directory that is not below an ignored one
    makes the whole walk fail, and unreadable directories below ignored
    ones do not matter. *)
Theorem walk_succeeds_iff_readable
    (join : list jsstr -> jsstr)
    (ignoreFn matcherFn : jsstr -> Walk.Dirent -> bool)
    (dirPath : jsstr) (entries : list Walk.fstree) :
  (exists files,
      Walk.deepReadDir join ignoreFn matcherFn dirPath (Ok entries) = Ok files)
  <-> forallb (Walk.readable join ignoreFn dirPath) entries = true.
Proof.
  unfold Walk.deepReadDir, Walk.deepReadDir_traced.
  apply readable_entries. apply Forall_forall. intros t _.
  apply readable_entry.
Qed.

(** X3. Every file the walk of [cmdDependencies] finds, and so every file
    handed to the TOML parser, is the join of a directory path and the
    name [Cargo.toml]. *)
Theorem manifests_are_named_cargo_toml
    (w : World) (rootPath : jsstr) (files : list jsstr) (file : jsstr) :
  Walk.deepReadDir (path_join w) (ignoreFn rootPath) matcherFn rootPath
    (readdir w rootPath) = Ok files ->
  In file files ->
  exists dir, file = path_join w [dir; lit "Cargo.toml"].
Proof.
  unfold Walk.deepReadDir.
  destruct (Walk.deepReadDir_traced (path_join w) (ignoreFn rootPath) matcherFn
              rootPath (readdir w rootPath)) as [seen r] eqn:Hwalk.
  cbn [snd]. intros -> Hin.
  rewrite (deepReadDir_traced_found _ _ _ _ _ _ _ Hwalk) in Hin.
  unfold Walk.found in Hin. apply filter_In in Hin. destruct Hin as [Hin _].
  apply in_map_iff in Hin. destruct Hin as ([dir dirent] & <- & Hv).
  apply filter_In in Hv. destruct Hv as [_ Hacc].
  unfold Walk.accepted, matcherFn in Hacc. cbn [fst snd] in Hacc.
  apply andb_true_iff in Hacc. destruct Hacc as [_ Hm].
  apply andb_true_iff in Hm. destruct Hm as [_ Hname].
  apply str_eqb_eq in Hname.
  exists dir. unfold Walk.path_of. cbn [fst snd]. rewrite Hname. reflexivity.
Qed.

Lemma manifests_are_named_witness :
  exists dir, lit "./crates/Cargo.toml" = path_join
    {| path_join := path_join Examples.world;
       parseGitConfig := parseGitConfig Examples.world;
       readdir := fun _ => Ok Examples.tree_with_target;
       parse_file := parse_file Examples.world;
       readFile := readFile Examples.world;
       axios_get := axios_get Examples.world;
       exec := exec Examples.world;
       yellow := yellow Examples.world;
       gray := gray Examples.world |} [dir; lit "Cargo.toml"].
Proof.
  apply (manifests_are_named_cargo_toml
           {| path_join := path_join Examples.world;
              parseGitConfig := parseGitConfig Examples.world;
              readdir := fun _ => Ok Examples.tree_with_target;
              parse_file := parse_file Examples.world;
              readFile := readFile Examples.world;
              axios_get := axios_get Examples.world;
              exec := exec Examples.world;
              yellow := yellow Examples.world;
              gray := gray Examples.world |}
           (lit ".") [lit "./crates/Cargo.toml"; lit "./Cargo.toml"]).
  - reflexivity.
  - left; reflexivity.
Defined.

Lemma lock_scan_holds_all_but_last_witness :
  exists index,
    Lock.cargoLockPackages
      (LockShape.lockfile_text
         [(lit "serde", Some Examples.registry);
          (lit "my-crate", None);
          (lit "tokio", Some Examples.registry)]) = Ok index
    /\ length (indexed_names index) = 3 - 1.
Proof.
  apply (lock_scan_holds_all_but_last
           [(lit "serde", Some Examples.registry);
            (lit "my-crate", None);
            (lit "tokio", Some Examples.registry)]).
  repeat constructor; vm_compute; try reflexivity;
    try discriminate; intuition discriminate.
Defined.


(** ** Where the entries of the lock index come from *)

Lemma set_own_keys {V} (o : obj V) (k k' : jsstr) (v : V) :
  In k' (List.map fst (set_own o k v)) -> k' = k \/ In k' (List.map fst o).
Proof.
  induction o as [|[k0 v0] o IH]; simpl.
  - intros [<-|[]]; auto.
  - destruct (str_eqb k0 k); simpl; intros [H|H]; auto.
    destruct (IH H); auto.
Qed.

Lemma push_name_keys (index index' : obj (list jsstr)) (key n k : jsstr) :
  push_name index key n = Ok index' ->
  In k (List.map fst index') -> k = key \/ In k (List.map fst index).
Proof.
  unfold push_name. destruct (get_own index key) as [names|].
  - intros H; injection H as <-. apply set_own_keys.
  - destruct (inherited key); [discriminate|].
    intros H; injection H as <-. apply set_own_keys.
Qed.

Section LockProvenance.
Import Lock.

Variable lines : list jsstr.

Lemma scan_line_from_lines (st st' : scan_state) (cargoLine : jsstr) :
  In cargoLine lines ->
  from_lines lines st -> scan_line st cargoLine = Ok st' ->
  from_lines lines st'.
Proof.
  intros Hline (Hn & Hs & Hnames & Hkeys).
  destruct st as [buffer index]. cbn [fst snd] in *. unfold scan_line.
  set (line := trim cargoLine).
  destruct (match name buffer with
            | Some n0 =>
                if str_eqb line (lit "[[package]]")
                then push_name index (property_key (source buffer)) n0
                else Ok index
            | None => Ok index
            end) as [index1|] eqn:Hcommit; cbn [rbind]; [|discriminate].
  assert (H1 : (forall n, In n (indexed_names index1) ->
                          given_by lines name_prefix (lit "name") n)
               /\ (forall k, In k (List.map fst index1) ->
                     k = lit "null" \/ given_by lines source_prefix (lit "source") k)).
  { destruct (name buffer) as [n0|] eqn:Hname;
      [|injection Hcommit as <-; auto].
    destruct (str_eqb line (lit "[[package]]"));
      [|injection Hcommit as <-; auto].
    split.
    - intros n Hin.
      destruct (push_name_names _ _ _ _ _ Hcommit Hin) as [->|H]; auto.
    - intros k Hin.
      destruct (push_name_keys _ _ _ _ _ Hcommit Hin) as [->|H]; auto.
      destruct (source buffer) as [s|] eqn:Hsource; cbn; auto. }
  destruct H1 as [Hnames1 Hkeys1].
  destruct (startsWith line name_prefix) eqn:Hpn.
  - destruct (match1 (quoted_field (lit "name")) line) as [n|] eqn:Hmn;
      cbn [rbind]; [|discriminate].
    destruct (startsWith line source_prefix) eqn:Hps.
    + destruct (match1 (quoted_field (lit "source")) line) as [s|] eqn:Hms;
        cbn [rbind]; [|discriminate].
      intros H; injection H as <-. cbn [fst snd name source].
      repeat split; auto.
      * intros n' H; injection H as <-. exists cargoLine; auto.
      * intros s' H; injection H as <-. exists cargoLine; auto.
    + cbn [rbind]. intros H; injection H as <-. cbn [fst snd name source].
      repeat split; auto.
      intros n' H; injection H as <-. exists cargoLine; auto.
  - cbn [rbind].
    destruct (startsWith line source_prefix) eqn:Hps.
    + destruct (match1 (quoted_field (lit "source")) line) as [s|] eqn:Hms;
        cbn [rbind]; [|discriminate].
      intros H; injection H as <-. cbn [fst snd name source].
      repeat split; auto.
      intros s' H; injection H as <-. exists cargoLine; auto.
    + cbn [rbind]. intros H; injection H as <-. cbn [fst snd].
      repeat split; auto.
Qed.

Lemma scan_lines_from_lines (some : list jsstr) :
  forall st st',
    (forall cargoLine, In cargoLine some -> In cargoLine lines) ->
    from_lines lines st -> scan_lines st some = Ok st' ->
    from_lines lines st'.
Proof.
  induction some as [|cargoLine some IH]; cbn [scan_lines];
    intros st st' Hsub Hst.
  - intros H; injection H as <-; exact Hst.
  - destruct (scan_line st cargoLine) as [st1|] eqn:H1; cbn [rbind];
      [|discriminate].
    apply IH; [intros l Hl; apply Hsub; right; exact Hl|].
    eapply scan_line_from_lines; eauto. apply Hsub; left; reflexivity.
Qed.

End LockProvenance.

(** X6. The scan of a lockfile invents nothing: every name in the index
    is the value the name pattern captures on a line of the file that
    starts with the name prefix, and every key of the index is either
    the string "null" or such a value of a source line. *)
Theorem lock_index_comes_from_lines (cargoLock : jsstr) (index : obj (list jsstr)) :
  Lock.cargoLockPackages cargoLock = Ok index ->
  (forall n, In n (indexed_names index) ->
             Lock.given_by (split LF cargoLock) Lock.name_prefix (lit "name") n)
  /\ (forall k, In k (List.map fst index) ->
                k = lit "null"
                \/ Lock.given_by (split LF cargoLock) Lock.source_prefix
                     (lit "source") k).
Proof.
  unfold Lock.cargoLockPackages.
  destruct (Lock.scan_lines Lock.initial (split LF cargoLock)) as [st|] eqn:Hscan;
    cbn [rbind]; [|discriminate].
  intros H; injection H as <-.
  assert (Hinit : Lock.from_lines (split LF cargoLock) Lock.initial).
  { repeat split; cbn; try discriminate; contradiction. }
  destruct (scan_lines_from_lines (split LF cargoLock) (split LF cargoLock)
              Lock.initial st (fun _ H => H) Hinit Hscan)
    as (_ & _ & Hnames & Hkeys).
  split; assumption.
Qed.

Lemma lock_index_comes_from_lines_witness :
  (forall n, In n (indexed_names [(Examples.registry, [lit "serde"])]) ->
             Lock.given_by (split LF Examples.lock_two) Lock.name_prefix
               (lit "name") n)
  /\ (forall k, In k (List.map fst [(Examples.registry, [lit "serde"])]) ->
                k = lit "null"
                \/ Lock.given_by (split LF Examples.lock_two) Lock.source_prefix
                     (lit "source") k).
Proof.
  apply (lock_index_comes_from_lines Examples.lock_two
           [(Examples.registry, [lit "serde"])]).
  vm_compute. reflexivity.
Defined.

(** ** The index of the manifests *)

Section ManifestIndex.
Import Toml Manifest.

Lemma names_under_app (k : jsstr) (a b : list (jsstr * jsstr)) :
  names_under k (a ++ b) = names_under k a ++ names_under k b.
Proof. unfold names_under. rewrite filter_app, map_app. reflexivity. Qed.

Lemma push_name_sequence (index index' : obj (list jsstr)) (key n : jsstr) :
  push_name index key n = Ok index' ->
  populated index ->
  populated index'
  /\ forall k, sequence_of index' k
               = sequence_of index k ++ names_under k [(key, n)].
Proof.
  unfold push_name, populated. intros Hpush Hpop.
  assert (Hset : forall v, v <> [] ->
    index' = set_own index key v ->
    sequence_of index key ++ [n] = v ->
    (forall k, get_own index' k <> Some [])
    /\ (forall k, sequence_of index' k
                  = sequence_of index k ++ names_under k [(key, n)])).
  { intros v Hv -> Hseq. split; intros k.
    - destruct (list_eq_dec N.eq_dec k key) as [->|Hk].
      + rewrite get_set_own_same. congruence.
      + rewrite get_set_own_other by assumption. apply Hpop.
    - unfold names_under. cbn [filter fst]. unfold sequence_of at 1.
      destruct (list_eq_dec N.eq_dec k key) as [->|Hk].
      + rewrite get_set_own_same, str_eqb_refl. cbn [List.map snd].
        symmetry. exact Hseq.
      + rewrite get_set_own_other by assumption.
        rewrite (str_eqb_neq _ _ (not_eq_sym Hk)). cbn [List.map].
        rewrite app_nil_r. reflexivity. }
  destruct (get_own index key) as [names|] eqn:Hget.
  - injection Hpush as <-. apply (Hset (names ++ [n])).
    + destruct names; discriminate.
    + reflexivity.
    + unfold sequence_of. rewrite Hget. reflexivity.
  - destruct (inherited key); [discriminate|]. injection Hpush as <-.
    apply (Hset [n]); [discriminate | reflexivity |].
    unfold sequence_of. rewrite Hget. reflexivity.
Qed.

Lemma index_dependencies_sequence (entries : list (jsstr * toml)) :
  forall index index',
    index_dependencies index entries = Ok index' ->
    populated index ->
    populated index'
    /\ forall k, sequence_of index' k
                 = sequence_of index k
                   ++ names_under k (flat_map declaration entries).
Proof.
  induction entries as [|[dep decl] entries IH]; cbn [index_dependencies];
    intros index index' Hrun Hpop.
  - injection Hrun as <-. split; [exact Hpop|].
    intros k. cbn. rewrite app_nil_r. reflexivity.
  - destruct (index_dependency index (dep, decl)) as [index1|] eqn:H1;
      cbn [rbind] in Hrun; [|discriminate].
    assert (Hstep : populated index1
                    /\ forall k, sequence_of index1 k
                                 = sequence_of index k
                                   ++ names_under k (declaration (dep, decl))).
    { unfold index_dependency in H1. unfold declaration. cbn [fst snd].
      destruct (prop decl (lit "git")) as [git|].
      - destruct (truthy git).
        + destruct (template_key git (branch_of decl)) as [key|] eqn:Hkey;
            cbn [rbind] in H1; [|discriminate].
          apply template_key_ok in Hkey. destruct Hkey as [-> _].
          apply (push_name_sequence _ _ _ _ H1 Hpop).
        + injection H1 as <-. split; [exact Hpop|].
          intros k. cbn. rewrite app_nil_r. reflexivity.
      - injection H1 as <-. split; [exact Hpop|].
        intros k. cbn. rewrite app_nil_r. reflexivity. }
    destruct Hstep as [Hpop1 Hseq1].
    destruct (IH _ _ Hrun Hpop1) as [Hpop' Hseq'].
    split; [exact Hpop'|]. intros k.
    cbn [flat_map]. rewrite names_under_app, Hseq', Hseq1, app_assoc.
    reflexivity.
Qed.

Variable parse_file : jsstr -> result toml.

Lemma scan_file_sequence (index index' : obj (list jsstr)) (file : jsstr) :
  scan_file parse_file index file = Ok index' ->
  populated index ->
  populated index'
  /\ forall k, sequence_of index' k
               = sequence_of index k
                 ++ names_under k (declared_by parse_file file).
Proof.
  intros Hrun Hpop. unfold declared_by.
  destruct (scan_file_inv _ _ _ _ Hrun)
    as (cfg & -> & [(deps & -> & -> & Hd)|[[->|(deps & -> & ->)] ->]]).
  - apply (index_dependencies_sequence _ _ _ Hd Hpop).
  - split; [exact Hpop|]. intros k. cbn. rewrite app_nil_r. reflexivity.
  - split; [exact Hpop|]. intros k. cbn. rewrite app_nil_r. reflexivity.
Qed.

Lemma scan_files_sequence (files : list jsstr) :
  forall index index',
    scan_files parse_file index files = Ok index' ->
    populated index ->
    populated index'
    /\ forall k, sequence_of index' k
                 = sequence_of index k
                   ++ names_under k (declared parse_file files).
Proof.
  induction files as [|file files IH]; cbn [scan_files];
    intros index index' Hrun Hpop.
  - injection Hrun as <-. split; [exact Hpop|].
    intros k. cbn. rewrite app_nil_r. reflexivity.
  - destruct (scan_file parse_file index file) as [index1|] eqn:H1;
      cbn [rbind] in Hrun; [|discriminate].
    destruct (scan_file_sequence _ _ _ H1 Hpop) as [Hpop1 Hseq1].
    destruct (IH _ _ Hrun Hpop1) as [Hpop' Hseq'].
    split; [exact Hpop'|]. intros k.
    unfold declared. cbn [flat_map]. fold (declared parse_file files).
    rewrite names_under_app, Hseq', Hseq1, app_assoc. reflexivity.
Qed.

Lemma dependencies_grouped (files : list jsstr) (index : obj (list jsstr)) :
  dependencies parse_file files = Ok index ->
  forall key,
    get_own index key
    = match names_under key (declared parse_file files) with
      | [] => None
      | names => Some names
      end.
Proof.
  intros Hrun key.
  destruct (scan_files_sequence files [] index Hrun) as [Hpop Hseq].
  { intros k. cbn. discriminate. }
  specialize (Hseq key). specialize (Hpop key).
  unfold sequence_of in Hseq. cbn in Hseq. rewrite <- Hseq.
  destruct (get_own index key) as [[|n names]|]; congruence.
Qed.

End ManifestIndex.

(** X7. The index of a finished manifest scan is the grouping of the git
    declarations by key: under each key it holds, in the order of the
    files and of the entries in each file, the names of the declarations
    with that key, and it has no key without a declaration. *)
Theorem manifest_index_groups_declarations
    (parse_file : jsstr -> result Toml.toml) (files : list jsstr)
    (index : obj (list jsstr)) :
  Manifest.dependencies parse_file files = Ok index ->
  forall key,
    get_own index key
    = match Manifest.names_under key (Manifest.declared parse_file files) with
      | [] => None
      | names => Some names
      end.
Proof. apply dependencies_grouped. Qed.

Lemma manifest_index_groups_witness :
  get_own [(lit "https://example.com/foo#dev", [lit "foo"; lit "bar"])]
    (lit "https://example.com/foo#dev")
  = match Manifest.names_under (lit "https://example.com/foo#dev")
            (Manifest.declared (parse_file Examples.world_two_crates)
               [lit "/repo/a/Cargo.toml"; lit "/repo/b/Cargo.toml"]) with
    | [] => None
    | names => Some names
    end.
Proof.
  apply (manifest_index_groups_declarations
           (parse_file Examples.world_two_crates)
           [lit "/repo/a/Cargo.toml"; lit "/repo/b/Cargo.toml"]
           [(lit "https://example.com/foo#dev", [lit "foo"; lit "bar"])]).
  vm_compute. reflexivity.
Defined.

(** ** How the manifest scan fails *)

Section ManifestFailure.
Import Toml Manifest.

(** No name that objects inherit holds a [#]. *)
Lemma inherited_no_hash (k : jsstr) : In HASH k -> inherited k = false.
Proof.
  intros Hin. destruct (inherited k) eqn:E; [|reflexivity].
  unfold inherited in E. apply existsb_exists in E.
  destruct E as (pk & Hpk & Heq). apply str_eqb_eq in Heq. subst pk.
  assert (Hall : forallb (fun pk => negb (existsb (N.eqb HASH) pk))
                   prototype_keys = true) by reflexivity.
  rewrite forallb_forall in Hall. specialize (Hall k Hpk).
  assert (Hex : existsb (N.eqb HASH) k = true)
    by (apply existsb_exists; exists HASH; split;
        [exact Hin | apply N.eqb_refl]).
  rewrite Hex in Hall. discriminate.
Qed.

Lemma key_of_has_hash (git branch : toml) : In HASH (key_of git branch).
Proof. unfold key_of. apply in_or_app; right. left; reflexivity. Qed.

(** The loop over the entries of a dependency table throws only at a
    declaration whose git or branch value cannot be turned into a string:
    a push never throws, since every key holds a [#]. *)
Lemma index_dependencies_failure (entries : list (jsstr * toml)) :
  forall index e,
    index_dependencies index entries = Err e ->
    e = TypeError
    /\ exists dep decl git,
         In (dep, decl) entries
         /\ prop decl (lit "git") = Some git /\ truthy git = true
         /\ (stringifiable git = false
             \/ stringifiable (branch_of decl) = false).
Proof.
  induction entries as [|[dep decl] entries IH]; cbn [index_dependencies];
    intros index e; [discriminate|].
  destruct (index_dependency index (dep, decl)) as [index1|e1] eqn:H1;
    cbn [rbind].
  - intros Hrest. destruct (IH _ _ Hrest) as (-> & d & dc & g & Hin & Hrest').
    split; [reflexivity|]. exists d, dc, g. split; [right; exact Hin | exact Hrest'].
  - intros H; injection H as <-.
    unfold index_dependency in H1.
    destruct (prop decl (lit "git")) as [git|] eqn:Hg; [|discriminate].
    destruct (truthy git) eqn:Ht; [|discriminate].
    unfold template_key in H1.
    destruct (stringifiable git && stringifiable (branch_of decl)) eqn:Hs;
      cbn [rbind] in H1.
    + destruct (push_name_succeeds index (key_of git (branch_of decl)) dep
                  (inherited_no_hash _ (key_of_has_hash _ _))) as [i' Hi'].
      rewrite Hi' in H1. discriminate.
    + injection H1 as <-. split; [reflexivity|].
      exists dep, decl, git. apply andb_false_iff in Hs.
      repeat split; auto. left; reflexivity.
Qed.

Variable parse_file : jsstr -> result toml.

Lemma scan_file_failure (index : obj (list jsstr)) (file : jsstr) (e : error) :
  scan_file parse_file index file = Err e ->
  exists cause,
    e = Wrapped (lit "failed decoding file " ++ file) cause
    /\ (parse_file file = Err cause
        \/ (cause = TypeError
            /\ exists configToml deps dep decl git,
                 parse_file file = Ok configToml
                 /\ configDeps configToml = Some deps
                 /\ In (dep, decl) (own_entries deps)
                 /\ prop decl (lit "git") = Some git /\ truthy git = true
                 /\ (stringifiable git = false
                     \/ stringifiable (branch_of decl) = false))).
Proof.
  unfold scan_file, decoding.
  destruct (parse_file file) as [cfg|cause]; cbn [rbind].
  - destruct (configDeps cfg) as [deps|] eqn:Hc; [|discriminate].
    destruct (truthy deps); [|discriminate].
    destruct (index_dependencies index (own_entries deps)) as [i'|cause]
      eqn:Hd; [discriminate|].
    intros H; injection H as <-.
    destruct (index_dependencies_failure _ _ _ Hd)
      as (-> & dep & decl & git & Hin & Hg & Ht & Hs).
    exists TypeError. split; [reflexivity|]. right. split; [reflexivity|].
    exists cfg, deps, dep, decl, git. auto 10.
  - intros H; injection H as <-. eauto.
Qed.

Lemma scan_files_failure (files : list jsstr) :
  forall index e,
    scan_files parse_file index files = Err e ->
    exists file cause,
      In file files
      /\ e = Wrapped (lit "failed decoding file " ++ file) cause
      /\ (parse_file file = Err cause
          \/ (cause = TypeError
              /\ exists configToml deps dep decl git,
                   parse_file file = Ok configToml
                   /\ configDeps configToml = Some deps
                   /\ In (dep, decl) (own_entries deps)
                   /\ prop decl (lit "git") = Some git /\ truthy git = true
                   /\ (stringifiable git = false
                       \/ stringifiable (branch_of decl) = false))).
Proof.
  induction files as [|file files IH]; cbn [scan_files]; intros index e;
    [discriminate|].
  destruct (scan_file parse_file index file) as [index1|e1] eqn:H1;
    cbn [rbind].
  - intros Hrest. destruct (IH _ _ Hrest) as (f & cause & Hin & He & Hc).
    exists f, cause. auto using in_cons.
  - intros H; injection H as <-.
    destruct (scan_file_failure _ _ _ H1) as (cause & He & Hc).
    exists file, cause. auto using in_eq.
Qed.

End ManifestFailure.

(** X8. The manifest scan fails only at a manifest file that cannot be
    read or parsed, or at a git declaration whose git or branch value
    cannot be turned into a string (a table with a [toString] key, or an
    array that holds one), which is a [TypeError]; either way the error
    names the file and carries the cause. A push into the index never
    throws, since every key holds a [#]. *)
Theorem manifest_scan_fails_at_file_or_key
    (parse_file : jsstr -> result Toml.toml) (files : list jsstr) (e : error) :
  Manifest.dependencies parse_file files = Err e ->
  exists file cause,
    In file files
    /\ e = Wrapped (lit "failed decoding file " ++ file) cause
    /\ (parse_file file = Err cause
        \/ (cause = TypeError
            /\ exists configToml deps dep decl git,
                 parse_file file = Ok configToml
                 /\ Manifest.configDeps configToml = Some deps
                 /\ In (dep, decl) (Toml.own_entries deps)
                 /\ Toml.prop decl (lit "git") = Some git
                 /\ Toml.truthy git = true
                 /\ (Toml.stringifiable git = false
                     \/ Toml.stringifiable (Manifest.branch_of decl) = false))).
Proof. apply scan_files_failure. Qed.

Lemma manifest_scan_failure_witness :
  exists file cause,
    In file [lit "Cargo.toml"; lit "odd/Cargo.toml"]
    /\ Wrapped (lit "failed decoding file " ++ lit "odd/Cargo.toml") TypeError
       = Wrapped (lit "failed decoding file " ++ file) cause
    /\ (MoreExamples.parse_odd file = Err cause
        \/ (cause = TypeError
            /\ exists configToml deps dep decl git,
                 MoreExamples.parse_odd file = Ok configToml
                 /\ Manifest.configDeps configToml = Some deps
                 /\ In (dep, decl) (Toml.own_entries deps)
                 /\ Toml.prop decl (lit "git") = Some git
                 /\ Toml.truthy git = true
                 /\ (Toml.stringifiable git = false
                     \/ Toml.stringifiable (Manifest.branch_of decl) = false))).
Proof.
  apply (manifest_scan_fails_at_file_or_key MoreExamples.parse_odd
           [lit "Cargo.toml"; lit "odd/Cargo.toml"]).
  vm_compute. reflexivity.
Defined.

(** X9. The top-level dependency table of a manifest takes precedence:
    when every manifest has a truthy top-level [dependencies], every
    indexed name is an entry of such a top-level table, and nothing is
    taken from a [workspace.dependencies] table. *)
Theorem top_level_dependencies_take_precedence
    (parse_file : jsstr -> result Toml.toml) (files : list jsstr)
    (index : obj (list jsstr)) (n : jsstr) :
  Manifest.dependencies parse_file files = Ok index ->
  (forall file configToml,
      In file files -> parse_file file = Ok configToml ->
      Manifest.is_truthy (Toml.prop configToml (lit "dependencies")) = true) ->
  In n (indexed_names index) ->
  exists file configToml deps decl,
    In file files
    /\ parse_file file = Ok configToml
    /\ Toml.prop configToml (lit "dependencies") = Some deps
    /\ In (n, decl) (Toml.own_entries deps).
Proof.
  intros Hrun Htop Hin.
  destruct (scan_files_names parse_file files [] index n Hrun Hin)
    as [[]|(file & cfg & deps & decl & git & Hf & Hp & Hc & He & _)].
  exists file, cfg, deps, decl. repeat split; auto.
  specialize (Htop file cfg Hf Hp).
  unfold Manifest.configDeps, Manifest.js_or in Hc.
  unfold Manifest.is_truthy in Htop.
  destruct (Toml.prop cfg (lit "dependencies")) as [d|]; [|discriminate].
  rewrite Htop in Hc. exact Hc.
Qed.

(** X10. The [workspace.dependencies] table is the fallback: a git
    declaration in it is indexed, under its key, when the manifest has no
    top-level [dependencies]. *)
Theorem workspace_dependencies_are_the_fallback
    (parse_file : jsstr -> result Toml.toml) (files : list jsstr)
    (index : obj (list jsstr)) (file : jsstr)
    (configToml workspace deps : Toml.toml)
    (dep : jsstr) (decl git : Toml.toml) :
  Manifest.dependencies parse_file files = Ok index ->
  In file files ->
  parse_file file = Ok configToml ->
  Toml.prop configToml (lit "dependencies") = None ->
  Toml.prop configToml (lit "workspace") = Some workspace ->
  Toml.prop workspace (lit "dependencies") = Some deps ->
  Toml.truthy deps = true ->
  In (dep, decl) (Toml.own_entries deps) ->
  Toml.prop decl (lit "git") = Some git ->
  Toml.truthy git = true ->
  indexed_under index (Manifest.key_of git (Manifest.branch_of decl)) dep.
Proof.
  intros Hrun Hfile Hparse Htop Hws Hdeps Htd Hentry Hgit Htg.
  apply (scan_files_adds parse_file files [] index file configToml deps
           dep decl git Hrun Hfile Hparse); auto.
  unfold Manifest.configDeps, Manifest.js_or. rewrite Htop, Hws.
  destruct workspace; try discriminate. exact Hdeps.
Qed.

Lemma top_level_dependencies_witness :
  exists file configToml deps decl,
    In file [lit "Cargo.toml"]
    /\ Examples.parse_manifest file = Ok configToml
    /\ Toml.prop configToml (lit "dependencies") = Some deps
    /\ In (lit "sp-core", decl) (Toml.own_entries deps).
Proof.
  apply (top_level_dependencies_take_precedence Examples.parse_manifest
           [lit "Cargo.toml"] Examples.manifest_index (lit "sp-core")).
  - reflexivity.
  - intros file configToml [<-|[]] Hparse.
    vm_compute in Hparse. injection Hparse as <-. reflexivity.
  - left; reflexivity.
Defined.

Lemma workspace_dependencies_witness :
  indexed_under
    [(lit "https://github.com/paritytech/substrate#master", [lit "sp-core"])]
    (Manifest.key_of
       (Toml.TString (lit "https://github.com/paritytech/substrate"))
       (Manifest.branch_of
          (Toml.TTable
             [(lit "git",
               Toml.TString (lit "https://github.com/paritytech/substrate"))])))
    (lit "sp-core").
Proof.
  apply (workspace_dependencies_are_the_fallback MoreExamples.parse_workspace
           [lit "Cargo.toml"]
           [(lit "https://github.com/paritytech/substrate#master", [lit "sp-core"])]
           (lit "Cargo.toml") MoreExamples.workspace_manifest
           (Toml.TTable
              [(lit "members", Toml.TArray [Toml.TString (lit "crates/a")]);
               (lit "dependencies",
                Toml.TTable
                  [(lit "sp-core",
                    Toml.TTable
                      [(lit "git",
                        Toml.TString
                          (lit "https://github.com/paritytech/substrate"))])])])
           (Toml.TTable
              [(lit "sp-core",
                Toml.TTable
                  [(lit "git",
                    Toml.TString (lit "https://github.com/paritytech/substrate"))])])
           (lit "sp-core")
           (Toml.TTable
              [(lit "git",
                Toml.TString (lit "https://github.com/paritytech/substrate"))])
           (Toml.TString (lit "https://github.com/paritytech/substrate")));
    try reflexivity.
  - left; reflexivity.
  - left; reflexivity.
Defined.

(** ** Keys of the manifest index *)

Lemma app_separator_inj (sep : N) (a a' b b' : jsstr) :
  ~ In sep a -> ~ In sep a' ->
  a ++ sep :: b = a' ++ sep :: b' -> a = a' /\ b = b'.
Proof.
  revert a'. induction a as [|c a IH]; intros [|c' a'] Ha Ha' Heq;
    cbn in Heq.
  - injection Heq as <-. auto.
  - injection Heq as <- _. exfalso. apply Ha'. left; reflexivity.
  - injection Heq as -> _. exfalso. apply Ha. left; reflexivity.
  - injection Heq as <- Heq.
    destruct (IH a') as [<- <-]; auto.
    + intros H; apply Ha; right; exact H.
    + intros H; apply Ha'; right; exact H.
Qed.

(** X11. Two declarations whose git values hold no [#] get the same key
    only when they have the same git string and the same branch string:
    the key tells sources apart. *)
Theorem keys_tell_sources_apart (git1 branch1 git2 branch2 : Toml.toml) :
  ~ In HASH (Toml.to_string git1) ->
  ~ In HASH (Toml.to_string git2) ->
  Manifest.key_of git1 branch1 = Manifest.key_of git2 branch2 ->
  Toml.to_string git1 = Toml.to_string git2
  /\ Toml.to_string branch1 = Toml.to_string branch2.
Proof.
  unfold Manifest.key_of. intros H1 H2 Heq.
  exact (app_separator_inj HASH _ _ _ _ H1 H2 Heq).
Qed.

Lemma keys_tell_sources_apart_witness :
  Toml.to_string (Toml.TString (lit "https://example.com/foo"))
  = Toml.to_string (Toml.TString (lit "https://example.com/foo"))
  /\ Toml.to_string (Toml.TString (lit "1"))
     = Toml.to_string (Toml.TScalar true (lit "1")).
Proof.
  apply (keys_tell_sources_apart
           (Toml.TString (lit "https://example.com/foo")) (Toml.TString (lit "1"))
           (Toml.TString (lit "https://example.com/foo"))
           (Toml.TScalar true (lit "1")));
    try reflexivity; vm_compute; intuition discriminate.
Defined.

(** ** The loop of the upstream check *)

(** X12. When every request of the upstream check is answered, the check
    ends without an error and prints, in the order of the sources, the
    report of each source that has one and nothing else. *)
Theorem upstream_check_prints_reports_in_order
    (w : World) (sources : list jsstr) :
  (forall source, In source sources ->
                  exists r, Verify.check_source w source = Ok r) ->
  Verify.check_sources w sources
  = (flat_map (fun source =>
                 match Verify.check_source w source with
                 | Ok r => Verify.report r
                 | Err _ => []
                 end) sources,
     Ok tt).
Proof.
  induction sources as [|source sources IH]; intros Hall; [reflexivity|].
  destruct (Hall source (or_introl eq_refl)) as [r Hr].
  rewrite (check_sources_cons w source sources r Hr).
  rewrite IH by (intros s Hs; apply Hall; right; exact Hs).
  cbn [flat_map fst snd]. rewrite Hr. reflexivity.
Qed.

Lemma upstream_check_prints_witness :
  Verify.check_sources (Examples.answering (JStr (lit "def456")))
    [Examples.registry; Examples.git_locked]
  = (flat_map (fun source =>
                 match Verify.check_source
                         (Examples.answering (JStr (lit "def456"))) source with
                 | Ok r => Verify.report r
                 | Err _ => []
                 end) [Examples.registry; Examples.git_locked],
     Ok tt).
Proof.
  apply (upstream_check_prints_reports_in_order
           (Examples.answering (JStr (lit "def456")))
           [Examples.registry; Examples.git_locked]).
  intros source [<-|[<-|[]]]; eexists; vm_compute; reflexivity.
Defined.

(** X13. Sources that do not match the pattern of git sources cost no
    request: whatever the hosting API would answer, a check over such
    sources only prints nothing and ends without an error. *)
Theorem unmatched_sources_are_not_requested (sources : list jsstr) (w : World) :
  Forall (fun source => Regex.exec Verify.git_source source = None) sources ->
  Verify.check_sources w sources = ([], Ok tt).
Proof.
  induction 1 as [|source sources Hs _ IH]; [reflexivity|].
  rewrite (check_sources_cons w source sources None).
  - rewrite IH. reflexivity.
  - unfold Verify.check_source. rewrite Hs. reflexivity.
Qed.

Lemma unmatched_sources_witness :
  Verify.check_sources Examples.world [Examples.registry; lit "null"]
  = ([], Ok tt).
Proof.
  apply (unmatched_sources_are_not_requested
           [Examples.registry; lit "null"] Examples.world).
  repeat constructor.
Defined.

(** ** The origin of the checkout *)

Section OriginFacts.
Import Commits.

Lemma exec_skip (r : regex) (c : N) (s : jsstr) :
  rmatch r (fun cs _ => Some cs) [] (c :: s) = None ->
  Regex.exec r (c :: s) = Regex.exec r s.
Proof. intros H. cbn [Regex.exec]. rewrite H. reflexivity. Qed.

Lemma exec_here (r : regex) (s : jsstr) (m : captures) :
  rmatch r (fun cs _ => Some cs) [] s = Some m -> Regex.exec r s = Some m.
Proof. intros H. destruct s; cbn [Regex.exec]; rewrite H; reflexivity. Qed.

Lemma not_char_run (x : N) (v : jsstr) :
  ~ In x v -> forallb (not_char [x]) v = true.
Proof.
  induction v as [|c v IH]; simpl; intros H; [reflexivity|].
  rewrite IH by tauto. unfold not_char. simpl.
  destruct (N.eqb_spec c x) as [->|_]; [exfalso; auto | reflexivity].
Qed.

(** The pattern on what follows [git@] in an address of the hosting
    service. *)
Lemma origin_pattern_matches (owner repo suffix : jsstr) :
  owner <> [] -> ~ In 47%N owner ->
  repo <> [] -> ~ In 46%N repo ->
  suffix = [] \/ suffix = lit ".git" ->
  rmatch origin_pattern (fun cs _ => Some cs) []
    (lit "github" ++ 46%N :: lit "com:" ++ owner ++ lit "/" ++ repo ++ suffix)
  = Some [(2, repo); (1, owner)].
Proof.
  intros Ho Hos Hr Hrd Hsuffix.
  destruct owner as [|o owner]; [contradiction|].
  destruct repo as [|p repo]; [contradiction|].
  unfold origin_pattern. cbn [rseq rmatch]. rewrite rmatch_rlit.
  change (dot 46%N) with true. cbv iota. rewrite rmatch_rlit.
  apply plus_greedy_run.
  - apply not_char_run; exact Hos.
  - reflexivity.
  - rewrite firstn_consumed. rewrite rmatch_rlit.
    apply plus_greedy_run.
    + apply not_char_run; exact Hrd.
    + destruct Hsuffix as [->| ->]; reflexivity.
    + rewrite firstn_consumed.
      destruct Hsuffix as [->| ->]; reflexivity.
Qed.

Lemma rmatch_rlit_inv (l : jsstr) (k : captures -> jsstr -> option captures)
    (cs : captures) (s : jsstr) (x : captures) :
  rmatch (rlit l) k cs s = Some x ->
  exists s', s = l ++ s' /\ k cs s' = Some x.
Proof.
  revert s. induction l as [|c l IH]; intros s; cbn [rlit fold_right rmatch].
  - intros H. exists s. auto.
  - destruct s as [|d s]; [discriminate|].
    destruct (N.eqb_spec c d) as [<-|_]; [|discriminate].
    intros H. destruct (IH s H) as (s' & -> & Hk). exists s'. auto.
Qed.

(** A match of the pattern has a colon ten units after its start. *)
Lemma origin_pattern_colon (k : captures -> jsstr -> option captures)
    (cs : captures) (s : jsstr) (x : captures) :
  rmatch origin_pattern k cs s = Some x -> nth_error s 10 = Some 58%N.
Proof.
  unfold origin_pattern. cbn [rseq rmatch]. intros H.
  apply rmatch_rlit_inv in H. destruct H as (s1 & -> & H).
  destruct s1 as [|c s1]; [discriminate|].
  destruct (dot c); [|discriminate].
  apply rmatch_rlit_inv in H. destruct H as (s2 & -> & _).
  reflexivity.
Qed.

Lemma exec_inv (r : regex) (s : jsstr) (m : captures) :
  Regex.exec r s = Some m ->
  exists n, rmatch r (fun cs _ => Some cs) [] (skipn n s) = Some m.
Proof.
  induction s as [|c s IH]; cbn [Regex.exec].
  - destruct (rmatch r _ [] []) eqn:E; [|discriminate].
    intros H; injection H as <-. exists 0. exact E.
  - destruct (rmatch r _ [] (c :: s)) eqn:E.
    + intros H; injection H as <-. exists 0. exact E.
    + intros H. destruct (IH H) as [n Hn]. exists (S n). exact Hn.
Qed.

Lemma nth_skip_in (n i : nat) (s : jsstr) (c : N) :
  nth_error (skipn n s) i = Some c -> In c (skipn i s).
Proof.
  rewrite nth_error_skipn, Nat.add_comm, <- nth_error_skipn.
  apply nth_error_In.
Qed.

End OriginFacts.

(** X14. The address [git@github.com:<owner>/<repo>] of an origin, with
    or without a final [.git], is read as that owner and that repository,
    for every owner without a slash and every repository name without a
    dot. *)
Theorem ssh_origin_gives_owner_and_repo (owner repo suffix : jsstr) :
  owner <> [] -> ~ In 47%N owner ->
  repo <> [] -> ~ In 46%N repo ->
  suffix = [] \/ suffix = lit ".git" ->
  exists m,
    Commits.match_origin
      (JStr (lit "git@github.com:" ++ owner ++ lit "/" ++ repo ++ suffix))
    = Ok m
    /\ group 1 m = owner /\ group 2 m = repo.
Proof.
  intros Ho Hos Hr Hrd Hsuffix.
  exists [(2, repo); (1, owner)]. split; [|split; reflexivity].
  unfold Commits.match_origin.
  change (lit "git@github.com:" ++ owner ++ lit "/" ++ repo ++ suffix)
    with (103%N :: 105%N :: 116%N :: 64%N
            :: (lit "github" ++ 46%N :: lit "com:"
                  ++ owner ++ lit "/" ++ repo ++ suffix)).
  rewrite !exec_skip by reflexivity.
  rewrite (exec_here _ _ _
             (origin_pattern_matches owner repo suffix Ho Hos Hr Hrd Hsuffix)).
  reflexivity.
Qed.

Lemma ssh_origin_witness :
  exists m,
    Commits.match_origin
      (JStr (lit "git@github.com:" ++ lit "nbaztec" ++ lit "/"
               ++ lit "subsgrade" ++ lit ".git"))
    = Ok m
    /\ group 1 m = lit "nbaztec" /\ group 2 m = lit "subsgrade".
Proof.
  apply (ssh_origin_gives_owner_and_repo (lit "nbaztec") (lit "subsgrade")
           (lit ".git"));
    try (right; reflexivity); vm_compute; intuition discriminate.
Defined.

Lemma match_origin_needs_colon (url : jsstr) :
  ~ In 58%N (skipn 10 url) ->
  Commits.match_origin (JStr url) = Err TypeError.
Proof.
  intros Hcolon. unfold Commits.match_origin.
  destruct (Regex.exec Commits.origin_pattern url) as [m|] eqn:Hexec;
    [|reflexivity].
  exfalso. apply Hcolon.
  destruct (exec_inv _ _ _ Hexec) as [n Hn].
  apply origin_pattern_colon in Hn.
  exact (nth_skip_in n 10 url 58%N Hn).
Qed.

(** X15. An origin whose address has no colon from its eleventh unit on
    is not understood: the pattern wants [github.com:], so with an
    address such as [https://github.com/owner/repo] the audit prints the
    address and the error, runs no git command and fails with a wrapped
    [TypeError]. *)
Theorem origin_without_colon_is_a_type_error
    (w : World) (path branch branchUpstream url : jsstr) :
  parseGitConfig w (path_join w [path; lit ".git"; lit "config"])
  = Ok {| remote_origin := Some (JStr url) |} ->
  ~ In 58%N (skipn 10 url) ->
  Commits.cmdCommits w path branch branchUpstream
  = ([LogValue (JStr url); LogError TypeError],
     Err (Wrapped (lit "failed evaluating commits for " ++ path) TypeError)).
Proof.
  intros Hconfig Hcolon.
  unfold Commits.cmdCommits, Commits.audit, bind, lift, console_log.
  rewrite Hconfig. cbn [origin_url remote_origin].
  rewrite (match_origin_needs_colon url Hcolon). reflexivity.
Qed.

Lemma origin_without_colon_witness :
  Commits.cmdCommits MoreExamples.world_https (lit ".") (lit "stable") (lit "stable")
  = ([LogValue (JStr (lit "https://github.com/nbaztec/subsgrade.git"));
      LogError TypeError],
     Err (Wrapped (lit "failed evaluating commits for " ++ lit ".") TypeError)).
Proof.
  apply (origin_without_colon_is_a_type_error MoreExamples.world_https
           (lit ".") (lit "stable") (lit "stable")
           (lit "https://github.com/nbaztec/subsgrade.git")).
  - reflexivity.
  - vm_compute. intuition discriminate.
Defined.

(** ** The lists of the commit audit *)

Section AuditFacts.
Import Commits.

Lemma split_head (sep : N) (s : jsstr) :
  exists first rest,
    split sep s = first :: rest
    /\ ~ In sep first
    /\ (rest = [] <-> ~ In sep s).
Proof.
  induction s as [|c s (first & rest & Hs & Hfree & Hrest)]; cbn [split].
  - exists [], []. repeat split; auto.
  - destruct (N.eqb_spec c sep) as [->|Hc].
    + exists [], (split sep s). repeat split; auto.
      * intros H. rewrite Hs in H. discriminate.
      * intros H. exfalso. apply H. left; reflexivity.
    + rewrite Hs. exists (c :: first), rest. repeat split.
      * intros [H|H]; [congruence | auto].
      * intros H [Hin|Hin]; [congruence | apply Hrest in H; auto].
      * intros H. apply Hrest. intros Hin. apply H. right; exact Hin.
Qed.

End AuditFacts.

(** X16. Reading a line of the log loses nothing: the sha is the line up
    to its first space and holds no space, and the sha, a space and the
    subject give the line back; a line without a space is all sha, with an
    empty subject. *)
Theorem parse_commit_round_trip (commit : jsstr) :
  ~ In SP (Commits.sha (Commits.parse_commit commit))
  /\ (In SP commit ->
      Commits.sha (Commits.parse_commit commit)
        ++ SP :: Commits.subject (Commits.parse_commit commit) = commit)
  /\ (~ In SP commit ->
      Commits.sha (Commits.parse_commit commit) = commit
      /\ Commits.subject (Commits.parse_commit commit) = []).
Proof.
  unfold Commits.parse_commit.
  pose proof (join_split SP commit) as Hjoin.
  destruct (split_head SP commit) as (first & rest & Hs & Hfree & Hrest).
  rewrite Hs in Hjoin |- *. cbn [Commits.sha Commits.subject].
  split; [exact Hfree|]. split.
  - intros Hin. destruct rest as [|p rest].
    + exfalso. apply (proj1 Hrest); auto.
    + exact Hjoin.
  - intros Hno. apply Hrest in Hno. subst rest. cbn in Hjoin. auto.
Qed.

(** X17. No extra commit has the sha of the upstream tip, and the extra
    commits are the parsed lines of a prefix of the log: the loop never
    skips a line and never goes past the boundary. *)
Theorem extra_commits_stop_before_boundary
    (lastUpstreamCommit : jsstr) (commits : list jsstr) :
  Forall (fun c => Commits.sha c <> lastUpstreamCommit)
         (Commits.extraCommits lastUpstreamCommit commits)
  /\ exists k,
       Commits.extraCommits lastUpstreamCommit commits
       = List.map Commits.parse_commit (firstn k commits).
Proof.
  induction commits as [|commit commits [IHall [k IHk]]];
    cbn [Commits.extraCommits].
  - split; [constructor | exists 0; reflexivity].
  - destruct (str_eqb (Commits.sha (Commits.parse_commit commit))
                lastUpstreamCommit) eqn:E.
    + split; [constructor | exists 0; reflexivity].
    + split.
      * constructor; [|exact IHall].
        intros H. apply str_eqb_eq in H. congruence.
      * exists (S k). cbn [firstn List.map]. rewrite IHk. reflexivity.
Qed.

(** X18. The need list is the list of extra commits filtered by the
    containment query, in the same order: exactly the extra commits for
    which the query answers nothing but white space. *)
Theorem need_commits_are_the_lacking_extra_commits
    (w : World) (path currentBranch : jsstr)
    (extra need : list Commits.CommitRecord) :
  Commits.needCommits w path currentBranch extra = Ok need ->
  need = filter (Commits.lacks w path currentBranch) extra.
Proof.
  revert need. induction extra as [|c extra IH]; cbn [Commits.needCommits];
    intros need.
  - intros H; injection H as <-. reflexivity.
  - cbn [filter]. unfold Commits.lacks at 1.
    destruct (exec w (Commits.contains_command currentBranch (Commits.sha c))
                path) as [out|]; cbn [rbind]; [|discriminate].
    destruct (Commits.needCommits w path currentBranch extra) as [need'|];
      cbn [rbind]; [|discriminate].
    intros H; injection H as <-. rewrite (IH need' eq_refl).
    destruct (negb (nonempty (trim out))); reflexivity.
Qed.

Lemma need_commits_witness :
  [{| Commits.sha := lit "c3"; Commits.subject := lit "third change" |}]
  = filter (Commits.lacks Examples.world (lit ".") (lit "main"))
      [{| Commits.sha := lit "c3"; Commits.subject := lit "third change" |};
       {| Commits.sha := lit "c2"; Commits.subject := lit "second change" |}].
Proof.
  apply (need_commits_are_the_lacking_extra_commits Examples.world
           (lit ".") (lit "main")).
  reflexivity.
Defined.

(** ** What the flows use of the world *)

Lemma check_sources_ext (w w' : World) (sources : list jsstr) :
  axios_get w = axios_get w' ->
  Verify.check_sources w sources = Verify.check_sources w' sources.
Proof.
  intros Hget. induction sources as [|source sources IH];
    cbn [Verify.check_sources]; [reflexivity|].
  unfold Verify.check_source. rewrite Hget, IH. reflexivity.
Qed.

Lemma needCommits_ext (w w' : World) (path currentBranch : jsstr)
    (extra : list Commits.CommitRecord) :
  exec w = exec w' ->
  Commits.needCommits w path currentBranch extra
  = Commits.needCommits w' path currentBranch extra.
Proof.
  intros Hexec. induction extra as [|c extra IH];
    cbn [Commits.needCommits]; [reflexivity|].
  rewrite Hexec, IH. reflexivity.
Qed.

(** X19. An audit that fails prints no report: the output ends with the
    error that stopped it, holds no text line, and the flow is rejected
    with that error wrapped in a message that names the path. *)
Theorem failed_audit_prints_no_report
    (w : World) (path branch branchUpstream : jsstr)
    (out : list output) (e : error) :
  Commits.cmdCommits w path branch branchUpstream = (out, Err e) ->
  exists cause before,
    e = Wrapped (lit "failed evaluating commits for " ++ path) cause
    /\ out = before ++ [LogError cause]
    /\ forall s, ~ In (LogText s) out.
Proof.
  unfold Commits.cmdCommits.
  destruct (Commits.audit w path branch branchUpstream) as [o [[]|cause]]
    eqn:Haudit; [discriminate|].
  intros H; injection H as <- <-.
  exists cause, o. split; [reflexivity|]. split; [reflexivity|].
  assert (Ho : o = [] \/ exists url, o = [LogValue url]).
  { unfold Commits.audit, bind, lift, console_log in Haudit.
    destruct (parseGitConfig w _) as [gitConfig|];
      [|injection Haudit as <- _; auto].
    destruct (origin_url gitConfig) as [url|];
      [|injection Haudit as <- _; auto].
    destruct (Commits.match_origin url) as [m|];
      [|injection Haudit as <- _; eauto].
    destruct (exec w (lit "git branch --show-current") path) as [o1|];
      [|injection Haudit as <- _; eauto].
    destruct (exec w (_ ++ branchUpstream) path) as [o2|];
      [|injection Haudit as <- _; eauto].
    destruct (exec w (_ ++ branch) path) as [o3|];
      [|injection Haudit as <- _; eauto].
    destruct (Commits.needCommits w path (trim o1) _) as [need|];
      [discriminate | injection Haudit as <- _; eauto]. }
  intros s Hin. apply in_app_or in Hin.
  destruct Ho as [->|[url ->]]; destruct Hin as [Hin|Hin];
    cbn in Hin; intuition discriminate.
Qed.

Lemma failed_audit_witness :
  exists cause before,
    Wrapped (lit "failed evaluating commits for " ++ lit ".") TypeError
    = Wrapped (lit "failed evaluating commits for " ++ lit ".") cause
    /\ [LogError TypeError] = before ++ [LogError cause]
    /\ forall s, ~ In (LogText s) [LogError TypeError].
Proof.
  apply (failed_audit_prints_no_report Examples.world_no_origin
           (lit ".") (lit "stable") (lit "stable")).
  reflexivity.
Defined.

(** X20. The [deps] flow asks the world for nothing but the git
    configuration, the directory tree and the manifests, and with
    [--lock] also the lockfile and the hosting API: it runs no git
    command, and without [--lock] it neither reads the lockfile nor
    sends a request. *)
Theorem deps_uses_only_its_inputs
    (w w' : World) (rootPath : jsstr) (cargoLock verbose : bool) :
  path_join w = path_join w' ->
  parseGitConfig w = parseGitConfig w' ->
  readdir w = readdir w' ->
  parse_file w = parse_file w' ->
  (cargoLock = true ->
   readFile w = readFile w' /\ axios_get w = axios_get w') ->
  cmdDependencies w rootPath cargoLock verbose
  = cmdDependencies w' rootPath cargoLock verbose.
Proof.
  intros Hjoin Hconfig Hreaddir Hparse Hlock.
  unfold cmdDependencies. rewrite Hjoin, Hconfig, Hreaddir, Hparse.
  destruct cargoLock; [|reflexivity].
  destruct (Hlock eq_refl) as [Hread Hget]. rewrite Hread.
  unfold bind, lift, console_log, print_index.
  destruct (parseGitConfig w' _) as [gitConfig|]; [|reflexivity].
  destruct (origin_url gitConfig) as [url|]; [|reflexivity].
  destruct (Walk.deepReadDir _ _ _ _ _) as [files|]; [|reflexivity].
  destruct (Manifest.dependencies _ files) as [dependencies|]; [|reflexivity].
  destruct (readFile w' _) as [text|]; [|reflexivity].
  destruct (Lock.cargoLockPackages text) as [packages|]; [|reflexivity].
  rewrite (check_sources_ext w w' _ Hget). reflexivity.
Qed.

Lemma deps_uses_only_its_inputs_witness :
  cmdDependencies Examples.world (lit "/repo") false true
  = cmdDependencies (Examples.answering (JStr (lit "abc123")))
      (lit "/repo") false true.
Proof.
  apply (deps_uses_only_its_inputs Examples.world
           (Examples.answering (JStr (lit "abc123"))) (lit "/repo") false true);
    try reflexivity.
  discriminate.
Defined.

(** X21. The [commits] flow asks the world for nothing but the git
    configuration, the git commands and the colours: it reads no
    directory, no manifest and no lockfile and sends no request. *)
Theorem commits_uses_only_its_inputs
    (w w' : World) (path branch branchUpstream : jsstr) :
  path_join w = path_join w' ->
  parseGitConfig w = parseGitConfig w' ->
  exec w = exec w' ->
  yellow w = yellow w' ->
  gray w = gray w' ->
  Commits.cmdCommits w path branch branchUpstream
  = Commits.cmdCommits w' path branch branchUpstream.
Proof.
  intros Hjoin Hconfig Hexec Hyellow Hgray.
  assert (Haudit : Commits.audit w path branch branchUpstream
                   = Commits.audit w' path branch branchUpstream).
  { unfold Commits.audit, Commits.need_message, Commits.commit_line.
    rewrite Hjoin, Hconfig, Hexec, Hyellow, Hgray.
    unfold bind, lift, console_log.
    destruct (parseGitConfig w' _) as [gitConfig|]; [|reflexivity].
    destruct (origin_url gitConfig) as [url|]; [|reflexivity].
    destruct (Commits.match_origin url) as [m|]; [|reflexivity].
    destruct (exec w' (lit "git branch --show-current") path) as [o1|];
      [|reflexivity].
    destruct (exec w' (_ ++ branchUpstream) path) as [o2|]; [|reflexivity].
    destruct (exec w' (_ ++ branch) path) as [o3|]; [|reflexivity].
    rewrite (needCommits_ext w w' _ _ _ Hexec). reflexivity. }
  unfold Commits.cmdCommits. rewrite Haudit. reflexivity.
Qed.

Lemma commits_uses_only_its_inputs_witness :
  Commits.cmdCommits Examples.world (lit ".") (lit "stable") (lit "stable")
  = Commits.cmdCommits (Examples.answering (JStr (lit "abc123")))
      (lit ".") (lit "stable") (lit "stable").
Proof.
  apply (commits_uses_only_its_inputs Examples.world
           (Examples.answering (JStr (lit "abc123")))
           (lit ".") (lit "stable") (lit "stable"));
    reflexivity.
Defined.

(** ** The verbose flag *)

Lemma check_sources_terse (w : World) (sources : list jsstr) :
  List.map terse (fst (Verify.check_sources w sources))
  = fst (Verify.check_sources w sources).
Proof.
  induction sources as [|source sources IH]; [reflexivity|].
  cbn [Verify.check_sources]. unfold bind, lift.
  destruct (Verify.check_source w source) as [r|]; [|reflexivity].
  destruct (Verify.check_sources w sources) as [out res].
  cbn [fst] in IH |- *. rewrite app_nil_l.
  destruct r as [r|]; cbn [Verify.report app List.map terse fst];
    rewrite IH; reflexivity.
Qed.

(** X22. The verbose flag changes how things are printed and nothing
    else: a run without it ends as the verbose run ends, and prints what
    the verbose run prints with every index shown as its list of keys. *)
Theorem verbose_changes_only_the_printing
    (w : World) (rootPath : jsstr) (cargoLock : bool) :
  cmdDependencies w rootPath cargoLock false
  = (List.map terse (fst (cmdDependencies w rootPath cargoLock true)),
     snd (cmdDependencies w rootPath cargoLock true)).
Proof.
  unfold cmdDependencies, print_index, bind, lift, console_log, ret.
  destruct (parseGitConfig w _) as [gitConfig|]; [|reflexivity].
  destruct (origin_url gitConfig) as [url|]; [|reflexivity].
  destruct (Walk.deepReadDir _ _ _ _ _) as [files|]; [|reflexivity].
  destruct (Manifest.dependencies _ files) as [dependencies|]; [|reflexivity].
  destruct cargoLock; [|reflexivity].
  destruct (readFile w _) as [text|]; [|reflexivity].
  destruct (Lock.cargoLockPackages text) as [packages|]; [|reflexivity].
  pose proof (check_sources_terse w (keys packages)) as Hterse.
  destruct (Verify.check_sources w (keys packages)) as [out res].
  cbn [fst snd] in Hterse |- *. cbn [app List.map terse].
  rewrite Hterse. reflexivity.
Qed.

(** ** A checkout without an origin *)

(** X23. Without a [remote "origin"] section in the git configuration
    both flows stop at once with a [TypeError]: [deps] has printed only
    its arguments, [commits] prints only the error, and neither reads
    anything else. *)
Theorem missing_origin_stops_both_flows
    (w : World) (path branch branchUpstream : jsstr) (cargoLock verbose : bool) :
  parseGitConfig w (path_join w [path; lit ".git"; lit "config"])
  = Ok {| remote_origin := None |} ->
  cmdDependencies w path cargoLock verbose
  = ([LogArgs path cargoLock verbose], Err TypeError)
  /\ Commits.cmdCommits w path branch branchUpstream
     = ([LogError TypeError],
        Err (Wrapped (lit "failed evaluating commits for " ++ path) TypeError)).
Proof.
  intros Hconfig. split.
  - unfold cmdDependencies, bind, lift, console_log. rewrite Hconfig.
    reflexivity.
  - unfold Commits.cmdCommits, Commits.audit, bind, lift, console_log.
    rewrite Hconfig. reflexivity.
Qed.

Lemma missing_origin_witness :
  cmdDependencies Examples.world_no_origin (lit ".") true false
  = ([LogArgs (lit ".") true false], Err TypeError)
  /\ Commits.cmdCommits Examples.world_no_origin (lit ".") (lit "stable")
       (lit "stable")
     = ([LogError TypeError],
        Err (Wrapped (lit "failed evaluating commits for " ++ lit ".") TypeError)).
Proof.
  apply (missing_origin_stops_both_flows Examples.world_no_origin
           (lit ".") (lit "stable") (lit "stable") true false).
  reflexivity.
Defined.

(** ** Lines of a lockfile that cannot be read *)

Section LockErrors.
Import Lock.

Lemma plus_greedy_inv (p : N -> bool) (k : jsstr -> option captures)
    (s : jsstr) (x : captures) :
  plus_greedy p k s = Some x ->
  exists run rest, s = run ++ rest /\ k rest = Some x.
Proof.
  induction s as [|c s IH]; cbn [plus_greedy]; [discriminate|].
  destruct (p c); [|discriminate].
  destruct (plus_greedy p k s) as [y|] eqn:E.
  - intros H; injection H as <-.
    destruct (IH eq_refl) as (run & rest & -> & Hk).
    exists (c :: run), rest. auto.
  - intros Hk. exists [c], s. auto.
Qed.

(** A match of the pattern of a quoted field spans two quotes. *)
Lemma quoted_field_two_quotes (field : jsstr)
    (k : captures -> jsstr -> option captures) (cs : captures)
    (s : jsstr) (x : captures) :
  rmatch (quoted_field field) k cs s = Some x ->
  2 <= count_occ N.eq_dec s QUOTE.
Proof.
  unfold quoted_field. cbn [rseq rmatch]. intros H.
  apply rmatch_rlit_inv in H. destruct H as (s1 & -> & H).
  apply plus_greedy_inv in H. destruct H as (run & rest & -> & H).
  apply rmatch_rlit_inv in H. destruct H as (s2 & -> & _).
  assert (Hone : count_occ N.eq_dec [QUOTE] QUOTE = 1) by reflexivity.
  rewrite !count_occ_app, !Hone. lia.
Qed.

Lemma count_occ_skipn (n : nat) (s : jsstr) (c : N) :
  count_occ N.eq_dec (skipn n s) c <= count_occ N.eq_dec s c.
Proof.
  rewrite <- (firstn_skipn n s) at 2. rewrite count_occ_app. lia.
Qed.

Lemma match1_one_quote (field line : jsstr) :
  count_occ N.eq_dec line QUOTE < 2 ->
  match1 (quoted_field field) line = Err TypeError.
Proof.
  intros Hcount. unfold match1.
  destruct (Regex.exec (quoted_field field) line) as [m|] eqn:Hexec;
    [|reflexivity].
  exfalso. destruct (exec_inv _ _ _ Hexec) as [n Hn].
  apply quoted_field_two_quotes in Hn.
  pose proof (count_occ_skipn n line QUOTE). lia.
Qed.

(** The only error of the scan of a line is a [TypeError]. *)
Lemma scan_line_type_error (st : scan_state) (cargoLine : jsstr) (e : error) :
  scan_line st cargoLine = Err e -> e = TypeError.
Proof.
  destruct st as [buffer index]. unfold scan_line.
  set (line := trim cargoLine).
  assert (Hpush : forall k n e', push_name index k n = Err e' -> e' = TypeError).
  { intros k n e'. unfold push_name. destruct (get_own index k); [discriminate|].
    destruct (inherited k); [congruence | discriminate]. }
  assert (Hmatch : forall re e', match1 re line = Err e' -> e' = TypeError).
  { intros re e'. unfold match1. destruct (Regex.exec re line);
      [discriminate | congruence]. }
  destruct (match name buffer with
            | Some n0 =>
                if str_eqb line (lit "[[package]]")
                then push_name index (property_key (source buffer)) n0
                else Ok index
            | None => Ok index
            end) as [index1|e1] eqn:Hcommit; cbn [rbind].
  - destruct (startsWith line name_prefix).
    + destruct (match1 (quoted_field (lit "name")) line) as [n|e2] eqn:Hn;
        cbn [rbind]; [|intros H; injection H as <-; eapply Hmatch; eauto].
      destruct (startsWith line source_prefix); [|discriminate].
      destruct (match1 (quoted_field (lit "source")) line) as [s|e3] eqn:Hs;
        cbn [rbind]; [discriminate|].
      intros H; injection H as <-; eapply Hmatch; eauto.
    + cbn [rbind].
      destruct (startsWith line source_prefix); [|discriminate].
      destruct (match1 (quoted_field (lit "source")) line) as [s|e3] eqn:Hs;
        cbn [rbind]; [discriminate|].
      intros H; injection H as <-; eapply Hmatch; eauto.
  - intros H; injection H as <-.
    destruct (name buffer) as [n0|]; [|discriminate].
    destruct (str_eqb line (lit "[[package]]")); [|discriminate].
    eapply Hpush; eauto.
Qed.

(** A line that fails in every state makes the scan fail. *)
Lemma scan_lines_bad_line (lines : list jsstr) (cargoLine : jsstr) :
  In cargoLine lines ->
  (forall st, scan_line st cargoLine = Err TypeError) ->
  forall st, scan_lines st lines = Err TypeError.
Proof.
  intros Hin Hbad. induction lines as [|l lines IH]; [contradiction|].
  intros st. cbn [scan_lines].
  destruct (scan_line st l) as [st1|e] eqn:H1; cbn [rbind].
  - destruct Hin as [->|Hin]; [rewrite Hbad in H1; discriminate|].
    apply IH; exact Hin.
  - rewrite (scan_line_type_error _ _ _ H1). reflexivity.
Qed.

(** A name line whose value has no closing quote fails in every state. *)
Lemma scan_line_open_name (st : scan_state) (cargoLine v : jsstr) :
  trim cargoLine = name_prefix ++ v -> ~ In QUOTE v ->
  scan_line st cargoLine = Err TypeError.
Proof.
  intros Htrim Hv. destruct st as [buffer index]. unfold scan_line.
  rewrite Htrim.
  assert (Hmarker : str_eqb (name_prefix ++ v) (lit "[[package]]") = false)
    by reflexivity.
  rewrite Hmarker, startsWith_app.
  rewrite match1_one_quote.
  - destruct (name buffer); reflexivity.
  - rewrite count_occ_app.
    rewrite (proj1 (count_occ_not_In N.eq_dec v QUOTE) Hv).
    change (count_occ N.eq_dec name_prefix QUOTE) with 1. lia.
Qed.

End LockErrors.

(** X24. A name line of a lockfile whose value is not closed by a quote
    ends the scan with a [TypeError], wherever the line stands: the
    pattern finds nothing and the code reads the first group of no
    match. *)
Theorem unclosed_name_line_is_a_type_error (cargoLock cargoLine v : jsstr) :
  In cargoLine (split LF cargoLock) ->
  trim cargoLine = Lock.name_prefix ++ v ->
  ~ In QUOTE v ->
  Lock.cargoLockPackages cargoLock = Err TypeError.
Proof.
  intros Hin Htrim Hv. unfold Lock.cargoLockPackages.
  rewrite (scan_lines_bad_line (split LF cargoLock) cargoLine Hin).
  - reflexivity.
  - intros st. apply (scan_line_open_name st cargoLine v Htrim Hv).
Qed.

Lemma unclosed_name_line_witness :
  Lock.cargoLockPackages
    (Examples.lock_one ++ lit "[[package]]" ++ [LF] ++ lit "  name = "
       ++ [QUOTE] ++ lit "tokio" ++ [LF])
  = Err TypeError.
Proof.
  apply (unclosed_name_line_is_a_type_error
           (Examples.lock_one ++ lit "[[package]]" ++ [LF] ++ lit "  name = "
              ++ [QUOTE] ++ lit "tokio" ++ [LF])
           (lit "  name = " ++ [QUOTE] ++ lit "tokio") (lit "tokio")).
  - vm_compute. intuition.
  - reflexivity.
  - vm_compute. intuition discriminate.
Defined.

(** ** Every error ends the flow *)

Section FlowFailure.
Variable w : World.

Lemma failed_err {A} (out : list output) (e : error) :
  Cli.failed (A := A) (out, Err e) = true.
Proof. reflexivity. Qed.





End FlowFailure.


